(** * Verification of [.tools/update-mod.py] (no-blood-and-gore mod)

    The script parses every actor/variant XML file with
    [xml.etree.ElementTree], and [clean_xml] decides whether the document
    holds a [<prop>] whose [actor] mentions "blood", strips such props,
    gives every [<variant>] a [frequency], prunes empty structure and
    returns the serialised tree, or [None] when nothing is to be written.

    The embedding below follows [clean_xml] line by line.  An
    [ElementTree] element is a tag, a dictionary of attributes and an
    ordered list of child elements;  the parser used by [ET.parse] drops
    comments and processing instructions, and [clean_xml] never reads or
    writes the [text] and [tail] of an element, so they are left out.
    The two loops that walk a list made by [findall] and change the
    listed elements in place run on a store of mutable cells;
    [remove_empty_elements], which is recursive in the script, is a
    recursive function on trees.  Every stage returns the new tree
    together with what it did to the [modified] flag. *)

From Stdlib Require Import Ascii String.
From stdpp Require Import base option list strings gmap.

Set Warnings "-register-all,-clear-no-such-hyp".
Open Scope string_scope.
Open Scope list_scope.

(** ** Strings: [str.lower] and the [in] operator *)

(** [str.lower()] restricted to the ASCII letters.  Strings are sequences
    of UTF-8 bytes.  Python lowers non-ASCII letters as well, but the only
    code points outside ASCII whose lower case holds an ASCII letter are
    U+0130 (giving "i") and U+212A (giving "k"), and neither letter occurs
    in "blood": for the test made by [clean_xml] both agree. *)
Definition lower_ascii (c : ascii) : ascii :=
  let n := Ascii.N_of_ascii c in
  if ((65 <=? n) && (n <=? 90))%N then Ascii.ascii_of_N (n + 32) else c.

Fixpoint lower (s : string) : string :=
  match s with
  | EmptyString => EmptyString
  | String c s' => String (lower_ascii c) (lower s')
  end.

(** [needle in hay] on strings. *)
Fixpoint contains (needle hay : string) : bool :=
  String.prefix needle hay ||
  match hay with
  | EmptyString => false
  | String _ hay' => contains needle hay'
  end.

(** ** The element tree *)

Inductive Element : Type :=
  mkElement { tag : string;
              attrib : gmap string string;
              children : list Element }.

(** [Element.get(key)] is [attrib e !! key]. *)

(** ["blood" in (prop.get("actor") or "").lower()] *)
Definition is_blood (prop : Element) : bool :=
  contains "blood" (lower (default "" (attrib prop !! "actor"))).

(** Python truthiness of [element.get(key)]: [None] and [""] are false. *)
Definition truthy (v : option string) : bool :=
  match v with
  | None => false
  | Some s => negb (String.eqb s "")
  end.

(** ** [ElementPath]: the paths used by [findall] and [find]

    A node is identified by its position: the list of child indices that
    leads to it from the element the search starts at. *)
Abbreviation path := (list nat).

Fixpoint subtree (e : Element) (p : path) : option Element :=
  match p with
  | [] => Some e
  | i :: p' =>
      match children e !! i with
      | Some c => subtree c p'
      | None => None
      end
  end.

(** [Element.iter()]: the element itself, then its descendants, in
    document order. *)
Fixpoint iter (e : Element) : list (path * Element) :=
  ([], e) ::
  (fix iter_children (i : nat) (cs : list Element) : list (path * Element) :=
     match cs with
     | [] => []
     | c :: cs' =>
         ((λ qd, (i :: qd.1, qd.2)) <$> iter c) ++ iter_children (S i) cs'
     end) 0 (children e).

Definition iter_children : nat → list Element → list (path * Element) :=
  fix iter_children (i : nat) (cs : list Element) : list (path * Element) :=
    match cs with
    | [] => []
    | c :: cs' =>
        ((λ qd, (i :: qd.1, qd.2)) <$> iter c) ++ iter_children (S i) cs'
    end.

(** [prepare_descendant]: [//tag] selects, for every element of the
    current result, the elements of [elem.iter(tag)] other than [elem]. *)
Definition select_descendant (t : string) (result : list (path * Element))
  : list (path * Element) :=
  result ≫= λ pe,
    (λ qd, (pe.1 ++ qd.1, qd.2))
      <$> filter (λ qd, tag qd.2 = t ∧ qd.1 ≠ []) (iter pe.2).

(** [prepare_child]: [/tag] selects the children with that tag. *)
Definition select_child (t : string) (result : list (path * Element))
  : list (path * Element) :=
  result ≫= λ pe,
    filter (λ qd, tag qd.2 = t)
           (imap (λ i c, (pe.1 ++ [i], c)) (children pe.2)).

(** [root.findall(".//variant/props/prop")] *)
Definition findall_variant_props_prop (root : Element) : list (path * Element) :=
  select_child "prop"
    (select_child "props" (select_descendant "variant" [([], root)])).

(** [root.findall(".//props/prop")] *)
Definition findall_props_prop (root : Element) : list (path * Element) :=
  select_child "prop" (select_descendant "props" [([], root)]).

(** [root.findall(".//props")] and [root.findall(".//variant")] *)
Definition findall_desc (t : string) (root : Element) : list (path * Element) :=
  select_descendant t [([], root)].

(** ** The elements as objects

    [findall] returns references to elements, and the two loops of
    [clean_xml] change the elements they are handed in place, while the
    list made before the loop is walked.  For these loops the document is
    kept as a store of cells.  An element is named by the position it had
    when the store was made;  its cell holds its tag, its attributes and
    the names of the children it has at the moment. *)
Record Cell : Type :=
  mkCell { ctag : string; cattrib : gmap string string; ckids : list path }.

Definition cell_of (p : path) (e : Element) : Cell :=
  mkCell (tag e) (attrib e) (imap (λ i (_ : Element), p ++ [i]) (children e)).

Definition store_of (root : Element) : gmap path Cell :=
  list_to_map ((λ pe, (pe.1, cell_of pe.1 pe.2)) <$> iter root).

(** The number of steps to the deepest element. *)
Fixpoint height (e : Element) : nat :=
  match e with
  | mkElement _ _ cs => foldr (λ c n, S (height c) `max` n) 0 cs
  end.

(** The element with name [p] as a tree again, read from the store down
    to depth [fuel]. *)
Fixpoint element_of (s : gmap path Cell) (fuel : nat) (p : path) : Element :=
  match s !! p with
  | Some c =>
      mkElement (ctag c) (cattrib c)
                match fuel with
                | 0 => []
                | S fuel' => element_of s fuel' <$> ckids c
                end
  | None => mkElement "" ∅ []
  end.

(** [list(element)]: the names of the children. *)
Definition kids (s : gmap path Cell) (p : path) : list path :=
  from_option ckids [] (s !! p).

(** [element.iter()]: the element and everything below it, down to depth
    [fuel]. *)
Fixpoint iter_names (s : gmap path Cell) (fuel : nat) (p : path) : list path :=
  p :: match fuel with
       | 0 => []
       | S fuel' => kids s p ≫= iter_names s fuel'
       end.

(** [get_parent_map] and [prepare_parent]: [elem.find("..")].  The parent
    map is built from the element the search is called on
    ([context.root]): for every [p] of [context.root.iter()] and every
    child [e] of [p] it sets [parent_map[e] = p].  The search yields
    [parent_map[elem]] when [elem] is a key of the map. *)
Definition parent_map (s : gmap path Cell) (fuel : nat) (context_root : path)
  : gmap path path :=
  foldl (λ m ep, <[ep.1 := ep.2]> m) ∅
        (iter_names s fuel context_root ≫= λ p, (λ e, (e, p)) <$> kids s p).

Definition find_parent (s : gmap path Cell) (fuel : nat) (elem : path) : option path :=
  parent_map s fuel elem !! elem.

(** [element.set(key, value)] *)
Definition set (key value : string) (c : Cell) : Cell :=
  mkCell (ctag c) (<[key := value]> (cattrib c)) (ckids c).

(** [element.remove(child)] takes out the first occurrence. *)
Definition remove_kid (child : path) (c : Cell) : Cell :=
  mkCell (ctag c) (cattrib c)
         match list_find (λ k, k = child) (ckids c) with
         | Some (i, _) => delete i (ckids c)
         | None => ckids c
         end.

(** ** [clean_xml], lines 28-43: detection *)

(** [any("blood" in (prop.get("actor") or "").lower() for prop in prop_nodes)] *)
Definition any_blood (prop_nodes : list (path * Element)) : bool :=
  existsb (λ pe, is_blood pe.2) prop_nodes.

Definition has_blood (root : Element) : bool :=
  let has_blood := any_blood (findall_variant_props_prop root) in
  has_blood || any_blood (findall_props_prop root).

(** ** [clean_xml], lines 46-54: the loop over [root.findall(".//props")]

    The body of the loop for one element of the list: its children are
    replaced by those that do not mention blood, and when none is left
    the element is taken out of the parent that [props.find("..")]
    returns, if there is one, and [modified] is set. *)
Definition props_loop_body (fuel : nat) (sm : gmap path Cell * bool) (props : path)
  : gmap path Cell * bool :=
  let '(s, modified) := sm in
  let s :=
    alter (λ c, mkCell (ctag c) (cattrib c)
                       (filter (λ prop, is_blood (element_of s 0 prop) = false)
                               (ckids c)))
          props s in
  if bool_decide (kids s props = []) then
    match find_parent s fuel props with
    | Some parent => (alter (remove_kid props) parent s, true)
    | None => (s, modified)
    end
  else (s, modified).

(** The loop.  The list holds the elements tagged [props] below the root,
    in document order, as they are when the loop starts. *)
Definition props_loop (root : Element) : Element * bool :=
  let props_nodes := (findall_desc "props" root).*1 in
  let '(s, modified) :=
    foldl (props_loop_body (height root)) (store_of root, false) props_nodes in
  (element_of s (height root) [], modified).

(** ** [clean_xml], lines 56-61: the loop over [root.findall(".//variant")] *)

Definition variant_loop_body (sm : gmap path Cell * bool) (variant : path)
  : gmap path Cell * bool :=
  let '(s, modified) := sm in
  match s !! variant with
  | Some c =>
      let frequency := cattrib c !! "frequency" in
      match frequency with
      | None => (alter (set "frequency" "0") variant s, true)
      | Some _ => (s, modified)
      end
  | None => (s, modified)
  end.

Definition variant_loop (root : Element) : Element * bool :=
  let variants := (findall_desc "variant" root).*1 in
  let '(s, modified) := foldl variant_loop_body (store_of root, false) variants in
  (element_of s (height root) [], modified).

(** ** [remove_empty_elements], lines 63-107

    The [for child in element] loop decides for each child whether it goes
    to [to_remove], after recursing into it when it is a [<variant>] or a
    [<group>];  the second loop then removes the listed children.  The
    boolean is [True] when [modified] was set, here or below. *)
Fixpoint remove_empty_elements (element : Element) : Element * bool :=
  match element with
  | mkElement t a cs =>
      let '(cs', modified) :=
        (fix loop (cs : list Element) : list Element * bool :=
           match cs with
           | [] => ([], false)
           | child :: rest =>
               let '(child', to_remove, m1) :=
                 if bool_decide (tag child ∈ ["props"; "animations"; "textures"]) then
                   (child, bool_decide (children child = []), false)
                 else if bool_decide (tag child = "variant") then
                   let '(child', m) := remove_empty_elements child in
                   (child',
                    bool_decide (children child' = [])
                    && negb (truthy (attrib child' !! "file"))
                    && bool_decide (attrib child' !! "frequency" = Some "0"),
                    m)
                 else if bool_decide (tag child = "group") then
                   let '(child', m) := remove_empty_elements child in
                   (child',
                    match children child' with
                    | [] => true
                    | [variant] =>
                        bool_decide (tag variant = "variant")
                        && (bool_decide (children variant = [])
                            && negb (truthy (attrib variant !! "file"))
                            && bool_decide (attrib variant !! "frequency" ∈ [Some "0"; Some "100"]))
                    | _ => false
                    end,
                    m)
                 else (child, false, false) in
               let '(rest', m2) := loop rest in
               (if to_remove then rest' else child' :: rest',
                to_remove || m1 || m2)
           end) cs in
      (mkElement t a cs', modified)
  end.

(** The body of the first loop for one child: the child after the
    recursion, whether it is appended to [to_remove], and whether
    [modified] was set below it. *)
Definition visit_child (child : Element) : Element * bool * bool :=
  if bool_decide (tag child ∈ ["props"; "animations"; "textures"]) then
    (child, bool_decide (children child = []), false)
  else if bool_decide (tag child = "variant") then
    let '(child', m) := remove_empty_elements child in
    (child',
     bool_decide (children child' = [])
     && negb (truthy (attrib child' !! "file"))
     && bool_decide (attrib child' !! "frequency" = Some "0"),
     m)
  else if bool_decide (tag child = "group") then
    let '(child', m) := remove_empty_elements child in
    (child',
     match children child' with
     | [] => true
     | [variant] =>
         bool_decide (tag variant = "variant")
         && (bool_decide (children variant = [])
             && negb (truthy (attrib variant !! "file"))
             && bool_decide (attrib variant !! "frequency" ∈ [Some "0"; Some "100"]))
     | _ => false
     end,
     m)
  else (child, false, false).

(** Both loops over the children of one element. *)
Definition remove_loop : list Element → list Element * bool :=
  fix loop (cs : list Element) : list Element * bool :=
    match cs with
    | [] => ([], false)
    | child :: rest =>
        let '(child', to_remove, m1) := visit_child child in
        let '(rest', m2) := loop rest in
        (if to_remove then rest' else child' :: rest', to_remove || m1 || m2)
    end.

(** ** [clean_xml]

    The first component is the tree held in memory when [clean_xml]
    returns, the second is what it returns: [Some root] stands for the
    XML declaration followed by [ET.tostring(root)], which
    [clean_and_copy_xml_files] writes to the output folder, and [None]
    means that no file is written. *)
Definition clean_xml_run (root : Element) : Element * option Element :=
  let modified := false in
  if negb (has_blood root) then (root, None)
  else
    let '(root, m1) := props_loop root in
    let modified := modified || m1 in
    let '(root, m2) := variant_loop root in
    let modified := modified || m2 in
    let '(root, m3) := remove_empty_elements root in
    let modified := modified || m3 in
    if modified then (root, Some root) else (root, None).

Definition clean_xml (root : Element) : option Element := (clean_xml_run root).2.

(** ** Induction on element trees *)

Section Element_induction.
Variable P : Element → Prop.
Hypothesis Hnode : ∀ t a cs, Forall P cs → P (mkElement t a cs).

Fixpoint Element_ind' (e : Element) : P e :=
  match e with
  | mkElement t a cs =>
      Hnode t a cs
        ((fix all (l : list Element) : Forall P l :=
            match l with
            | [] => @List.Forall_nil _ P
            | c :: l' => @List.Forall_cons _ P c l' (Element_ind' c) (all l')
            end) cs)
  end.
End Element_induction.

(** ** The two loops by recursion on the tree

    What the loop over [.//props] leaves of an element that is not the
    root: below an element tagged [props] the children that mention blood
    are gone, and the others have gone through the loop themselves. *)
Fixpoint filter_props (e : Element) : Element :=
  match e with
  | mkElement t a cs =>
      mkElement t a
        ((fix below (cs : list Element) : list Element :=
            match cs with
            | [] => []
            | c :: rest =>
                if bool_decide (t = "props") && is_blood c then below rest
                else filter_props c :: below rest
            end) cs)
  end.

Definition filter_props_below (skip : bool) : list Element → list Element :=
  fix below (cs : list Element) : list Element :=
    match cs with
    | [] => []
    | c :: rest =>
        if skip && is_blood c then below rest
        else filter_props c :: below rest
    end.

(** The root is not in the list, so its own children are not filtered. *)
Definition filter_props_root (root : Element) : Element :=
  mkElement (tag root) (attrib root) (filter_props_below false (children root)).

(** What the loop over [.//variant] leaves of an element that is not the
    root. *)
Fixpoint set_frequency (e : Element) : Element :=
  match e with
  | mkElement t a cs =>
      mkElement t
        (if bool_decide (t = "variant") then
           match a !! "frequency" with
           | None => <["frequency" := "0"]> a
           | Some _ => a
           end
         else a)
        ((fix below (cs : list Element) : list Element :=
            match cs with
            | [] => []
            | c :: rest => set_frequency c :: below rest
            end) cs)
  end.

Definition set_frequency_root (root : Element) : Element :=
  mkElement (tag root) (attrib root) (set_frequency <$> children root).

(** Whether the loop over [.//variant] sets [modified]. *)
Definition needs_frequency (pe : path * Element) : bool :=
  bool_decide (attrib pe.2 !! "frequency" = None).

(** ** The loop bodies as changes of one cell *)

Definition keep_clean (s : gmap path Cell) (c : Cell) : Cell :=
  mkCell (ctag c) (cattrib c)
         (filter (λ prop, is_blood (element_of s 0 prop) = false) (ckids c)).

(** The cells of [s] have the attributes they have in [s0]. *)
Definition same_attribs (s0 s : gmap path Cell) : Prop :=
  ∀ q, cattrib <$> s !! q = cattrib <$> s0 !! q.

(** The children of a cell are named by positions one step below it: the
    store holds a tree. *)
Definition tree_like (s : gmap path Cell) : Prop :=
  ∀ q k, k ∈ kids s q → ∃ i : nat, k = q ++ [i].

Definition give_frequency (c : Cell) : Cell :=
  if bool_decide (cattrib c !! "frequency" = None) then set "frequency" "0" c else c.

Definition lacks_frequency (s : gmap path Cell) (p : path) : bool :=
  match s !! p with
  | Some c => bool_decide (cattrib c !! "frequency" = None)
  | None => false
  end.

(** The stores at the end of the two loops. *)
Definition props_store (root : Element) : gmap path Cell :=
  foldl (λ s p, alter (keep_clean (store_of root)) p s)
        (store_of root) (findall_desc "props" root).*1.

Definition variant_store (root : Element) : gmap path Cell :=
  foldl (λ s p, alter give_frequency p s)
        (store_of root) (findall_desc "variant" root).*1.

(** ** Relations and predicates used to state the properties *)

(** What a run may do to the attributes of an element with tag [t]:
    nothing, or give a [<variant>] without [frequency] the value ["0"]. *)
Definition attrib_kept (t : string) (a a' : gmap string string) : Prop :=
  a' = a ∨ (t = "variant" ∧ a !! "frequency" = None ∧ a' = <["frequency" := "0"]> a).

(** [embeds e e']: [e'] is [e] with some elements deleted together with
    everything below them;  the elements that stay keep their tag, their
    order among their siblings and their attributes, up to [attrib_kept]. *)
Inductive embeds : Element → Element → Prop :=
  | embeds_node t a a' cs cs' :
      attrib_kept t a a' → forest_embeds cs cs' →
      embeds (mkElement t a cs) (mkElement t a' cs')
with forest_embeds : list Element → list Element → Prop :=
  | forest_nil : forest_embeds [] []
  | forest_drop c cs cs' : forest_embeds cs cs' → forest_embeds (c :: cs) cs'
  | forest_keep c c' cs cs' :
      embeds c c' → forest_embeds cs cs' → forest_embeds (c :: cs) (c' :: cs').

(** [Q] holds of an element and of every element below it. *)
Inductive everywhere (Q : Element → Prop) : Element → Prop :=
  | everywhere_node e :
      Q e → Forall (everywhere Q) (children e) → everywhere Q e.

(** No child of a [<props>] mentions blood. *)
Definition props_clean (e : Element) : Prop :=
  tag e = "props" → Forall (λ c, is_blood c = false) (children e).

(** A [<variant>] has a [frequency]. *)
Definition has_frequency (e : Element) : Prop :=
  tag e = "variant" → is_Some (attrib e !! "frequency").

(** The elements [remove_empty_elements] looks at: the path from the
    element it is called on goes through [<variant>] and [<group>]
    elements only. *)
Fixpoint reached (e : Element) (p : path) : option Element :=
  match p with
  | [] => Some e
  | i :: p' =>
      match children e !! i with
      | Some c =>
          if bool_decide (tag c ∈ ["variant"; "group"]) then reached c p' else None
      | None => None
      end
  end.

(** No child that [remove_empty_elements] looks at is an empty
    [<props>], [<animations>] or [<textures>]. *)
Inductive pruned : Element → Prop :=
  | pruned_node e :
      Forall (λ c, (tag c ∈ ["props"; "animations"; "textures"] → children c ≠ [])
                   ∧ (tag c ∈ ["variant"; "group"] → pruned c))
             (children e) →
      pruned e.

(** ** What the stages do, to be proved of every element *)

(** What the loop over [.//props] does below one element: elements are
    only deleted, and afterwards no [<props>] has a child that mentions
    blood. *)
Definition filter_props_spec (c : Element) : Prop :=
  embeds c (filter_props c) ∧ everywhere props_clean (filter_props c).

(** What [remove_empty_elements] leaves under an element, and what it does
    to a tree. *)
Definition kept_child_ok (c : Element) : Prop :=
  (tag c ∈ ["props"; "animations"; "textures"] → children c ≠ [])
  ∧ (tag c ∈ ["variant"; "group"] → pruned c).

Definition remove_spec (c : Element) : Prop :=
  embeds c (remove_empty_elements c).1
  ∧ attrib (remove_empty_elements c).1 = attrib c
  ∧ pruned (remove_empty_elements c).1.

(** ** Properties of a whole tree named by the specification *)

(** No [<prop>] anywhere in the tree mentions blood. *)
Definition no_blood_prop (e : Element) : Prop :=
  ∀ p x, subtree e p = Some x → tag x = "prop" → is_blood x = false.

(** No [<props>], [<animations>] or [<textures>] anywhere in the tree is
    empty. *)
Definition no_empty_container (e : Element) : Prop :=
  ∀ p c, subtree e p = Some c →
         tag c ∈ ["props"; "animations"; "textures"] → children c ≠ [].

(** Every [<variant>] anywhere in the tree has a [frequency]. *)
Definition every_variant_has_frequency (e : Element) : Prop :=
  ∀ p v, subtree e p = Some v → tag v = "variant" → is_Some (attrib v !! "frequency").

(** ** Sample documents *)

Definition elem (t : string) (a : list (string * string)) (cs : list Element) : Element :=
  mkElement t (list_to_map a) cs.

(** Example 1 of the specification. *)
Definition doc_example1 : Element :=
  elem "actor" []
    [elem "group" []
       [elem "variant" []
          [elem "props" [] [elem "prop" [("actor", "Blood_Splatter_01")] []]]]].

(** Example 2: the variant keeps its file, so it stays. *)
Definition doc_example2 : Element :=
  elem "actor" []
    [elem "group" []
       [elem "variant" [("file", "hero_skin.asset")]
          [elem "props" [] [elem "prop" [("actor", "blood_pool")] []]]]].

(** Example 4: a [<prop>] directly under a [<variant>]. *)
Definition doc_example4 : Element :=
  elem "actor" []
    [elem "group" []
       [elem "variant" [("frequency", "100")]
          [elem "prop" [("actor", "Gore_blood")] []]]].

(** A variant with two props, one of which mentions blood. *)
Definition doc_two_props : Element :=
  elem "actor" []
    [elem "group" []
       [elem "variant" [("frequency", "100"); ("file", "hero_skin.asset")]
          [elem "props" []
             [elem "prop" [("actor", "props/blood_01.xml")] [];
              elem "prop" [("actor", "props/helmet.xml")] []]]]].

Definition doc_two_props_after : Element :=
  elem "actor" []
    [elem "group" []
       [elem "variant" [("frequency", "100"); ("file", "hero_skin.asset")]
          [elem "props" []
             [elem "prop" [("actor", "props/helmet.xml")] []]]]].

(** A [<prop>] directly under the [<variant>], next to a [<props>]. *)
Definition doc_prop_under_variant : Element :=
  elem "actor" []
    [elem "group" []
       [elem "variant" []
          [elem "prop" [("actor", "Gore_blood")] [];
           elem "props" []
             [elem "prop" [("actor", "blood_pool")] [];
              elem "prop" [("actor", "props/helmet.xml")] []]]]].

Definition doc_prop_under_variant_out : Element :=
  elem "actor" []
    [elem "group" []
       [elem "variant" [("frequency", "0")]
          [elem "prop" [("actor", "Gore_blood")] [];
           elem "props" []
             [elem "prop" [("actor", "props/helmet.xml")] []]]]].

(** The groups are below an element that is neither a [<variant>] nor a
    [<group>];  the variant holds an empty [<animations>]. *)
Definition doc_inline : Element :=
  elem "qualitylevels" []
    [elem "inline" []
       [elem "group" []
          [elem "variant" [("file", "hero_skin.asset")]
             [elem "animations" [] [];
              elem "props" []
                [elem "prop" [("actor", "blood_pool")] [];
                 elem "prop" [("actor", "props/helmet.xml")] []]]]]].

Definition doc_inline_out : Element :=
  elem "qualitylevels" []
    [elem "inline" []
       [elem "group" []
          [elem "variant" [("file", "hero_skin.asset"); ("frequency", "0")]
             [elem "animations" [] [];
              elem "props" []
                [elem "prop" [("actor", "props/helmet.xml")] []]]]]].

(** A variant file: the root is the [<variant>]. *)
Definition doc_variant_root : Element :=
  elem "variant" []
    [elem "props" [] [elem "prop" [("actor", "Blood_Splatter_01")] []]].

(** Variants without children, with an empty [file] and with frequency
    ["100"]. *)
Definition variant_empty_file : Element :=
  elem "variant" [("file", ""); ("frequency", "0")] [].

Definition variant_full_frequency : Element :=
  elem "variant" [("frequency", "100")] [].

(** No blood, but a variant without frequency, an empty group and an
    empty [<animations>]. *)
Definition doc_anomalies : Element :=
  elem "actor" []
    [elem "group" [] [];
     elem "group" []
       [elem "variant" []
          [elem "animations" [] [];
           elem "props" [] [elem "prop" [("actor", "props/helmet.xml")] []]]]].

(** ** Trees on which [remove_empty_elements] has nothing left to do *)

(** The tests of [remove_empty_elements] on a [<variant>] and on a
    [<group>], as properties of the child they are made on. *)
Definition empty_variant (v : Element) : Prop :=
  children v = [] ∧ truthy (attrib v !! "file") = false
  ∧ attrib v !! "frequency" = Some "0".

Definition useless_group (g : Element) : Prop :=
  children g = []
  ∨ ∃ v, children g = [v] ∧ tag v = "variant" ∧ children v = []
         ∧ truthy (attrib v !! "file") = false
         ∧ (attrib v !! "frequency" = Some "0" ∨ attrib v !! "frequency" = Some "100").

(** Every child that [remove_empty_elements] looks at stays as it is and
    is not listed for removal. *)
Inductive settled : Element → Prop :=
  | settled_node e :
      Forall (λ c, visit_child c = (c, false, false)
                   ∧ (tag c ∈ ["variant"; "group"] → settled c))
             (children e) →
      settled e.

(** [remove_empty_elements] leaves the flag alone exactly when it gives the
    tree back as it was. *)
Definition flag_means_change (e : Element) : Prop :=
  (remove_empty_elements e).2 = false ↔ (remove_empty_elements e).1 = e.

(** ** [clean_and_copy_xml_files], lines 125-152

    The input folder is a tree of folders; each file is given with what
    [ET.parse] makes of it.  Paths are lists of components, as
    [os.path.abspath] leaves them.  The output side is a disk: the
    folders that exist and the text files with their contents.  The walk
    reads the input and the loop writes the output, so the model is for
    an output folder that does not lie inside the input folder.  Errors
    of the operating system (a name held by a file of the other kind,
    permissions) are outside the model, and so are the log lines. *)

Inductive Parsed : Type :=
  | Tree (root : Element)
  | ParseError.

Inductive Folder : Type :=
  mkFolder { files : list (string * Parsed);
             folders : list (string * Folder) }.

Record Disk : Type :=
  mkDisk { dirs : gset (list string); texts : gmap (list string) string }.

(** [os.walk(top)], top-down: a folder before its subfolders.  Each file
    name comes with the document that [ET.parse] reads at that path. *)
Fixpoint walk (dirpath : list string) (d : Folder)
  : list (list string * list string * list (string * Parsed)) :=
  (dirpath, (folders d).*1, files d)
  :: (fix below (l : list (string * Folder)) :=
        match l with
        | [] => []
        | sub :: l' => walk (dirpath ++ [sub.1]) sub.2 ++ below l'
        end) (folders d).

Definition walk_below (dirpath : list string)
  : list (string * Folder) → list (list string * list string * list (string * Parsed)) :=
  fix below (l : list (string * Folder)) :=
    match l with
    | [] => []
    | sub :: l' => walk (dirpath ++ [sub.1]) sub.2 ++ below l'
    end.

(** [os.walk] yields nothing when [top] is not a folder. *)
Definition os_walk (top : list string) (input : option Folder)
  : list (list string * list string * list (string * Parsed)) :=
  match input with
  | Some d => walk top d
  | None => []
  end.

(** [file.endswith(suffix)] *)
Definition endswith (s suffix : string) : bool :=
  bool_decide (String.length suffix ≤ String.length s)%nat
  && String.eqb (String.substring (String.length s - String.length suffix)
                                  (String.length suffix) s)
                suffix.

(** [os.path.commonprefix] on two lists of components and
    [os.path.relpath(path, start)]. *)
Fixpoint commonprefix (l1 l2 : list string) : list string :=
  match l1, l2 with
  | x :: l1', y :: l2' =>
      if bool_decide (x = y) then x :: commonprefix l1' l2' else []
  | _, _ => []
  end.

Definition relpath (path start : list string) : list string :=
  let i := length (commonprefix start path) in
  let rel_list := replicate (length start - i) ".." ++ drop i path in
  if bool_decide (rel_list = []) then ["."] else rel_list.

(** [os.path.dirname] *)
Definition dirname (p : list string) : list string := take (length p - 1) p.

(** [os.path.exists], [os.makedirs(d, exist_ok=True)], which makes the
    missing folders on the way as well, and writing a text file. *)
Definition path_exists (p : list string) (disk : Disk) : bool :=
  bool_decide (p ∈ dirs disk) || bool_decide (is_Some (texts disk !! p)).

Definition prefixes (d : list string) : list (list string) :=
  (λ n, take n d) <$> seq 0 (S (length d)).

Definition makedirs (d : list string) (disk : Disk) : Disk :=
  mkDisk (dirs disk ∪ list_to_set (prefixes d)) (texts disk).

Definition write_text (p : list string) (text : string) (disk : Disk) : Disk :=
  mkDisk (dirs disk) (<[p := text]> (texts disk)).

(** The XML declaration that [clean_xml] puts in front of the tree. *)
Definition dquote : string := String "034"%char "".
Definition newline : string := String "010"%char "".
Definition declaration : string :=
  "<?xml version=" +:+ dquote +:+ "1.0" +:+ dquote
  +:+ " encoding=" +:+ dquote +:+ "utf-8" +:+ dquote +:+ "?>".

Section Walker.
(** [ET.tostring(root, encoding="utf-8").decode("utf-8")] *)
Variable tostring : Element → string.

(** [clean_xml(file_path)] with its [try]: the string it returns, [None]
    after a [ParseError]. *)
Definition clean_xml_path (doc : Parsed) : option string :=
  match doc with
  | Tree root =>
      match clean_xml root with
      | Some root => Some (declaration +:+ newline +:+ tostring root)
      | None => None
      end
  | ParseError => None
  end.

(** The body of the inner loop, lines 136-152. *)
Definition copy_file (input_folder output_folder root : list string)
    (disk : Disk) (entry : string * Parsed) : Disk :=
  let file := entry.1 in
  if negb (endswith file ".xml") then disk
  else
    let file_path := root ++ [file] in
    let cleaned_xml := clean_xml_path entry.2 in
    if truthy cleaned_xml then
      let relative_path := relpath file_path input_folder in
      let new_file_path := output_folder ++ relative_path in
      let disk := makedirs (dirname new_file_path) disk in
      write_text new_file_path (default "" cleaned_xml) disk
    else disk.

Definition clean_and_copy_xml_files (input_folder output_folder : list string)
    (input : option Folder) (disk : Disk) : Disk :=
  let disk :=
    if negb (path_exists output_folder disk) then makedirs output_folder disk
    else disk in
  foldl (λ disk step, foldl (copy_file input_folder output_folder step.1.1) disk step.2)
        disk (os_walk input_folder input).

(** What one file makes the loop write, if anything. *)
Definition planned (input_folder output_folder root : list string)
    (entry : string * Parsed) : option (list string * string) :=
  if endswith entry.1 ".xml" then
    match clean_xml_path entry.2 with
    | Some text =>
        Some (output_folder ++ relpath (root ++ [entry.1]) input_folder, text)
    | None => None
    end
  else None.

(** Everything the loop writes, in the order of the walk. *)
Definition plan (input_folder output_folder : list string) (input : option Folder)
  : list (list string * string) :=
  os_walk input_folder input ≫= λ step,
    omap (planned input_folder output_folder step.1.1) step.2.
End Walker.

(** The disk when the loop starts: lines 129-130. *)
Definition start_disk (output_folder : list string) (disk : Disk) : Disk :=
  if negb (path_exists output_folder disk) then makedirs output_folder disk else disk.

(** One write of the loop: lines 147-150. *)
Definition apply_write (disk : Disk) (kv : list string * string) : Disk :=
  write_text kv.1 kv.2 (makedirs (dirname kv.1) disk).

(** Induction on folders. *)
Section Folder_induction.
Variable P : Folder → Prop.
Hypothesis Hfolder : ∀ fs ds, Forall (λ sub, P sub.2) ds → P (mkFolder fs ds).

Fixpoint Folder_ind' (d : Folder) : P d :=
  match d with
  | mkFolder fs ds =>
      Hfolder fs ds
        ((fix all (l : list (string * Folder)) : Forall (λ sub, P sub.2) l :=
            match l with
            | [] => @List.Forall_nil _ (λ sub, P sub.2)
            | sub :: l' =>
                @List.Forall_cons _ (λ sub, P sub.2) sub l' (Folder_ind' sub.2) (all l')
            end) ds)
  end.
End Folder_induction.

(** The folder holds the document [doc] at the relative path [rel]. *)
Inductive has_file : Folder → list string → Parsed → Prop :=
  | has_file_here d name doc :
      (name, doc) ∈ files d → has_file d [name] doc
  | has_file_below d name sub rel doc :
      (name, sub) ∈ folders d → has_file sub rel doc →
      has_file d (name :: rel) doc.



(** Sample folders. *)
Definition sample_folder : Folder :=
  mkFolder
    [("readme.txt", ParseError); ("broken.xml", ParseError)]
    [("units",
      mkFolder [("hero.xml", Tree doc_example2); ("plain.xml", Tree doc_anomalies)] [])].

Definition empty_disk : Disk := mkDisk ∅ ∅.

(** A folder that holds a tree [clean_xml] returned. *)
Definition cleaned_folder : Folder :=
  mkFolder [("hero.xml", Tree doc_prop_under_variant_out)] [].

(** A group with a placeholder variant and a variant with a file. *)
Definition doc_two_variants : Element :=
  elem "actor" []
    [elem "group" []
       [variant_full_frequency;
        elem "variant" [("frequency", "1"); ("file", "a.xml")] []]].

(** ** What a run may delete

    The tags that [remove_empty_elements] tests. *)
Definition prunable : list string :=
  ["props"; "animations"; "textures"; "variant"; "group"].

(** [thins e e']: [e'] is [e] after deletions of two kinds only.  A child
    of a [<props>] goes, with all it holds, when its actor mentions blood
    ([in_props] says that the parent is a [<props>] that the loop over
    [.//props] visits).  An element with a tag of [prunable] goes when
    all its children go by these same two rules.  What stays keeps its
    tag and its attributes up to [attrib_kept]. *)
Inductive thins : Element → Element → Prop :=
  | thins_node t a a' cs cs' :
      attrib_kept t a a' →
      forest_thins (bool_decide (t = "props")) cs cs' →
      thins (mkElement t a cs) (mkElement t a' cs')
with forest_thins : bool → list Element → list Element → Prop :=
  | thins_nil in_props : forest_thins in_props [] []
  | thins_blood c cs cs' :
      is_blood c = true → forest_thins true cs cs' →
      forest_thins true (c :: cs) cs'
  | thins_emptied in_props c cs cs' :
      tag c ∈ prunable →
      forest_thins (bool_decide (tag c = "props")) (children c) [] →
      forest_thins in_props cs cs' →
      forest_thins in_props (c :: cs) cs'
  | thins_keep in_props c c' cs cs' :
      thins c c' → forest_thins in_props cs cs' →
      forest_thins in_props (c :: cs) (c' :: cs').



(** * Properties *)

(** ** The recursive definitions, unfolded one level *)

Lemma filter_props_eq t a cs :
  filter_props (mkElement t a cs)
  = mkElement t a (filter_props_below (bool_decide (t = "props")) cs).
Proof. reflexivity. Qed.

Lemma set_frequency_eq t a cs :
  set_frequency (mkElement t a cs)
  = mkElement t
      (if bool_decide (t = "variant") then
         match a !! "frequency" with
         | None => <["frequency" := "0"]> a
         | Some _ => a
         end
       else a)
      (set_frequency <$> cs).
Proof. reflexivity. Qed.

Lemma remove_empty_elements_eq t a cs :
  remove_empty_elements (mkElement t a cs)
  = let '(cs', modified) := remove_loop cs in (mkElement t a cs', modified).
Proof. reflexivity. Qed.

(** ** Deleting elements: [embeds] *)

Lemma attrib_kept_refl t a : attrib_kept t a a.
Proof. by left. Qed.

Lemma forest_embeds_refl_of cs :
  Forall (λ c, embeds c c) cs → forest_embeds cs cs.
Proof. induction 1; constructor; done. Qed.

Lemma embeds_refl e : embeds e e.
Proof.
  induction e as [t a cs IH] using Element_ind'.
  constructor; [apply attrib_kept_refl | by apply forest_embeds_refl_of].
Qed.

Lemma forest_embeds_refl cs : forest_embeds cs cs.
Proof. apply forest_embeds_refl_of, Forall_forall. intros; apply embeds_refl. Qed.

Lemma embeds_tag e e' : embeds e e' → tag e' = tag e.
Proof. by destruct 1. Qed.

Lemma embeds_children e e' : embeds e e' → forest_embeds (children e) (children e').
Proof. by destruct 1. Qed.

Lemma embeds_attrib e e' : embeds e e' → attrib_kept (tag e) (attrib e) (attrib e').
Proof. by destruct 1. Qed.

Lemma attrib_kept_lookup t a a' k :
  attrib_kept t a a' → k ≠ "frequency" → a' !! k = a !! k.
Proof.
  intros [-> | (_ & _ & ->)] Hk; [done |]. by rewrite lookup_insert_ne.
Qed.

Lemma attrib_kept_frequency t a a' :
  attrib_kept t a a' → is_Some (a !! "frequency") → a' !! "frequency" = a !! "frequency".
Proof.
  intros [-> | (_ & Hnone & ->)] [v Hv]; [done | congruence].
Qed.

Lemma embeds_is_blood e e' : embeds e e' → is_blood e' = is_blood e.
Proof.
  intros H. unfold is_blood.
  by rewrite (attrib_kept_lookup _ _ _ "actor" (embeds_attrib _ _ H)).
Qed.

Lemma forest_embeds_elem_of cs cs' x' :
  forest_embeds cs cs' → x' ∈ cs' → ∃ x, x ∈ cs ∧ embeds x x'.
Proof.
  induction 1 as [| c cs cs' _ IH | c c' cs cs' Hc _ IH]; intros Hin.
  - by apply elem_of_nil in Hin.
  - destruct (IH Hin) as (x & ? & ?). exists x. split; [by right | done].
  - apply elem_of_cons in Hin as [-> | Hin].
    + exists c. split; [by left | done].
    + destruct (IH Hin) as (x & ? & ?). exists x. split; [by right | done].
Qed.

(** Transitivity, by induction on the first tree. *)
Lemma attrib_kept_trans t a1 a2 a3 :
  attrib_kept t a1 a2 → attrib_kept t a2 a3 → attrib_kept t a1 a3.
Proof.
  intros [-> | (Ht & Hn & ->)] [-> | (Ht' & Hn' & ->)].
  - by left.
  - by right.
  - by right.
  - by rewrite lookup_insert_eq in Hn'.
Qed.

Lemma forest_embeds_trans_of cs1 :
  Forall (λ c1, ∀ c2 c3, embeds c1 c2 → embeds c2 c3 → embeds c1 c3) cs1 →
  ∀ cs2 cs3, forest_embeds cs1 cs2 → forest_embeds cs2 cs3 → forest_embeds cs1 cs3.
Proof.
  induction 1 as [| c1 cs1 Hc _ IH]; intros cs2 cs3 H12 H23.
  - inversion H12; subst. done.
  - inversion H12; subst.
    + constructor. by eapply IH.
    + inversion H23; subst.
      * constructor. by eapply IH.
      * apply forest_keep; [by eapply Hc | by eapply IH].
Qed.

Lemma embeds_trans e1 e2 e3 : embeds e1 e2 → embeds e2 e3 → embeds e1 e3.
Proof.
  revert e2 e3. induction e1 as [t a cs IH] using Element_ind'.
  intros e2 e3 H12 H23. inversion H12; subst. inversion H23; subst.
  constructor; [by eapply attrib_kept_trans | by eapply forest_embeds_trans_of].
Qed.

(** A property of single elements that deleting children and setting a
    missing frequency cannot break stays true of everything that stays. *)
Section Everywhere.
Variable Q : Element → Prop.
Hypothesis Q_stable : ∀ e e', embeds e e' → Q e → Q e'.

Lemma forest_everywhere_embeds_of cs :
  Forall (λ c, ∀ c', embeds c c' → everywhere Q c → everywhere Q c') cs →
  ∀ cs', forest_embeds cs cs' →
         Forall (everywhere Q) cs → Forall (everywhere Q) cs'.
Proof.
  induction 1 as [| c cs Hc _ IH]; intros cs' Hemb Hall.
  - inversion Hemb; subst. done.
  - apply Forall_cons in Hall as [Hq Hall].
    inversion Hemb; subst; [by apply IH |].
    apply Forall_cons. split; [by eapply Hc | by apply IH].
Qed.

Lemma everywhere_embeds e e' : embeds e e' → everywhere Q e → everywhere Q e'.
Proof.
  revert e'. induction e as [t a cs IH] using Element_ind'.
  intros e' Hemb Hall. inversion Hall as [? Hq Hcs]; subst.
  constructor; [by eapply Q_stable |].
  inversion Hemb; subst. simpl in *. by eapply forest_everywhere_embeds_of.
Qed.

Lemma forest_everywhere_embeds cs cs' :
  forest_embeds cs cs' → Forall (everywhere Q) cs → Forall (everywhere Q) cs'.
Proof.
  apply forest_everywhere_embeds_of, Forall_forall.
  intros c _ c'. apply everywhere_embeds.
Qed.

Lemma everywhere_subtree e p x : everywhere Q e → subtree e p = Some x → Q x.
Proof.
  revert e. induction p as [| i p IH]; intros e Hall Hsub; simpl in Hsub.
  - destruct Hall. congruence.
  - destruct (children e !! i) as [c |] eqn:Hc; [| done].
    destruct Hall as [e _ Hcs].
    eapply IH; [| done]. eapply Forall_lookup_1; done.
Qed.

Lemma below_everywhere_subtree root p x :
  Forall (everywhere Q) (children root) →
  p ≠ [] → subtree root p = Some x → Q x.
Proof.
  intros Hall Hp Hsub. destruct p as [| i p]; [done |]. simpl in Hsub.
  destruct (children root !! i) as [c |] eqn:Hc; [| done].
  eapply everywhere_subtree; [| done]. eapply Forall_lookup_1; done.
Qed.
End Everywhere.

Lemma props_clean_stable e e' : embeds e e' → props_clean e → props_clean e'.
Proof.
  intros Hemb Hq Ht. rewrite (embeds_tag _ _ Hemb) in Ht.
  apply Forall_forall. intros x' Hin.
  destruct (forest_embeds_elem_of _ _ _ (embeds_children _ _ Hemb) Hin)
    as (x & Hx & Hxx).
  rewrite (embeds_is_blood _ _ Hxx).
  by eapply (proj1 (Forall_forall _ _) (Hq Ht)).
Qed.

Lemma has_frequency_stable e e' : embeds e e' → has_frequency e → has_frequency e'.
Proof.
  intros Hemb Hq Ht. rewrite (embeds_tag _ _ Hemb) in Ht.
  rewrite (attrib_kept_frequency _ _ _ (embeds_attrib _ _ Hemb)); auto.
Qed.

(** ** The loop over [.//props], by recursion *)

Lemma filter_props_below_cons skip c rest :
  filter_props_below skip (c :: rest)
  = if skip && is_blood c then filter_props_below skip rest
    else filter_props c :: filter_props_below skip rest.
Proof. reflexivity. Qed.

Lemma filter_props_below_fmap skip cs :
  filter_props_below skip cs
  = filter_props <$> (if skip then filter (λ c, is_blood c = false) cs else cs).
Proof.
  induction cs as [| c cs IH]; [by destruct skip |].
  rewrite filter_props_below_cons, IH. destruct skip; cbn [andb]; [| done].
  rewrite filter_cons. destruct (is_blood c).
  - by rewrite decide_False.
  - by rewrite decide_True.
Qed.

Lemma filter_props_below_spec skip cs :
  Forall filter_props_spec cs →
  forest_embeds cs (filter_props_below skip cs)
  ∧ Forall (everywhere props_clean) (filter_props_below skip cs)
  ∧ (skip = true → Forall (λ c, is_blood c = false) (filter_props_below skip cs)).
Proof.
  induction 1 as [| c cs [Hemb Hclean] _ (IHe & IHc & IHb)].
  - split_and!; constructor.
  - rewrite filter_props_below_cons. destruct (skip && is_blood c) eqn:Hskip.
    + split_and!; [by constructor | done | done].
    + split_and!.
      * by constructor.
      * by constructor.
      * intros ->. simpl in Hskip. constructor; [| by apply IHb].
        by rewrite (embeds_is_blood _ _ Hemb).
Qed.

Lemma filter_props_ok e : filter_props_spec e.
Proof.
  induction e as [t a cs IH] using Element_ind'.
  destruct (filter_props_below_spec (bool_decide (t = "props")) cs IH)
    as (Hemb & Hclean & Hblood).
  unfold filter_props_spec. rewrite filter_props_eq. split.
  - constructor; [apply attrib_kept_refl | done].
  - constructor; [| done]. unfold props_clean. simpl. intros ->. by apply Hblood.
Qed.

Lemma filter_props_root_ok root :
  embeds root (filter_props_root root)
  ∧ Forall (everywhere props_clean) (children (filter_props_root root)).
Proof.
  destruct (filter_props_below_spec false (children root)) as (He & Hc & _).
  { apply Forall_forall. intros c _. apply filter_props_ok. }
  split; [| done]. destruct root. constructor; [apply attrib_kept_refl | done].
Qed.

(** ** The loop over [.//variant], by recursion *)

Lemma set_frequency_tag e : tag (set_frequency e) = tag e.
Proof. by destruct e. Qed.

Lemma set_frequency_children e :
  children (set_frequency e) = set_frequency <$> children e.
Proof. by destruct e. Qed.

Lemma set_frequency_attrib e :
  attrib (set_frequency e)
  = if bool_decide (tag e = "variant" ∧ attrib e !! "frequency" = None)
    then <["frequency" := "0"]> (attrib e) else attrib e.
Proof.
  destruct e as [t a cs]. rewrite set_frequency_eq. simpl.
  case_bool_decide as Ht.
  - destruct (a !! "frequency") eqn:Hf.
    + rewrite bool_decide_eq_false_2; [done | naive_solver].
    + by rewrite bool_decide_eq_true_2.
  - rewrite bool_decide_eq_false_2; [done | naive_solver].
Qed.

Lemma set_frequency_attrib_kept e :
  attrib_kept (tag e) (attrib e) (attrib (set_frequency e)).
Proof.
  rewrite set_frequency_attrib. case_bool_decide as H; [| by left].
  right. naive_solver.
Qed.

Lemma set_frequency_has_frequency e : has_frequency (set_frequency e).
Proof.
  intros Ht. rewrite set_frequency_tag in Ht. rewrite set_frequency_attrib.
  case_bool_decide as H.
  - rewrite lookup_insert_eq. by eexists.
  - destruct (attrib e !! "frequency") eqn:Hf; [by eexists | naive_solver].
Qed.

Lemma set_frequency_ok e :
  embeds e (set_frequency e) ∧ everywhere has_frequency (set_frequency e).
Proof.
  induction e as [t a cs IH] using Element_ind'.
  pose proof (set_frequency_attrib_kept (mkElement t a cs)) as Ha.
  pose proof (set_frequency_has_frequency (mkElement t a cs)) as Hf.
  rewrite set_frequency_eq in Ha, Hf |- *. simpl in Ha. split.
  - constructor; [done |].
    clear -IH. induction IH as [| c cs [Hc _] _ IH']; [constructor |].
    rewrite fmap_cons. by apply forest_keep.
  - constructor; [done |]. simpl.
    apply Forall_fmap. eapply Forall_impl; [exact IH |]. by intros c [_ H].
Qed.

Lemma set_frequency_root_ok root :
  embeds root (set_frequency_root root)
  ∧ Forall (everywhere has_frequency) (children (set_frequency_root root)).
Proof.
  split.
  - destruct root as [t a cs]. constructor; [apply attrib_kept_refl |]. simpl.
    induction cs as [| c cs IH]; [constructor |].
    rewrite fmap_cons. apply forest_keep; [apply set_frequency_ok | done].
  - apply Forall_fmap, Forall_forall. intros c _. apply set_frequency_ok.
Qed.

Lemma set_frequency_subtree e p x :
  subtree e p = Some x →
  ∃ x', subtree (set_frequency e) p = Some x'
        ∧ tag x' = tag x
        ∧ attrib x'
          = if bool_decide (tag x = "variant" ∧ attrib x !! "frequency" = None)
            then <["frequency" := "0"]> (attrib x) else attrib x.
Proof.
  revert e. induction p as [| i p IH]; intros e Hs; simpl in Hs.
  - simplify_eq. exists (set_frequency x).
    split_and!; [done | apply set_frequency_tag | apply set_frequency_attrib].
  - destruct (children e !! i) as [c |] eqn:Hc; [| done].
    destruct (IH c Hs) as (x' & Hx' & Ht & Ha). exists x'.
    split_and!; [| done..]. simpl.
    by rewrite set_frequency_children, list_lookup_fmap, Hc.
Qed.

(** ** [remove_empty_elements] *)

Lemma remove_loop_cons child rest :
  remove_loop (child :: rest)
  = let '(child', to_remove, m1) := visit_child child in
    let '(rest', m2) := remove_loop rest in
    (if to_remove then rest' else child' :: rest', to_remove || m1 || m2).
Proof. reflexivity. Qed.

Lemma container_not_structural t :
  t ∈ ["props"; "animations"; "textures"] → t ∈ ["variant"; "group"] → False.
Proof.
  rewrite !elem_of_cons, !elem_of_nil. intros [-> | [-> | [-> | []]]] H;
    by destruct H as [? | [? | []]].
Qed.

Lemma visit_child_spec c :
  remove_spec c →
  embeds c (visit_child c).1.1
  ∧ ((visit_child c).1.2 = false → kept_child_ok (visit_child c).1.1).
Proof.
  intros (Hemb & _ & Hpruned). unfold visit_child.
  pose proof (embeds_tag _ _ Hemb) as Htag.
  destruct (remove_empty_elements c) as [c' m]. simpl in *.
  case_bool_decide as Hcont; [| case_bool_decide as Hvar; [| case_bool_decide as Hgrp]];
    simpl.
  - split; [apply embeds_refl |]. intros Hne%bool_decide_eq_false. split; [done |].
    intros Hs. by destruct (container_not_structural _ Hcont Hs).
  - split; [done |]. intros _. split; [| done].
    intros Hc. rewrite Htag in Hc. done.
  - split; [done |]. intros _. split; [| done].
    intros Hc. rewrite Htag in Hc. done.
  - split; [apply embeds_refl |]. intros _. split; [done |].
    rewrite !elem_of_cons, elem_of_nil. naive_solver.
Qed.

Lemma remove_loop_spec cs :
  Forall remove_spec cs →
  forest_embeds cs (remove_loop cs).1 ∧ Forall kept_child_ok (remove_loop cs).1.
Proof.
  induction 1 as [| c cs Hc _ [IHe IHk]]; [split; constructor |].
  rewrite remove_loop_cons.
  destruct (visit_child_spec c Hc) as [Hemb Hkept].
  destruct (visit_child c) as [[c' to_remove] m1], (remove_loop cs) as [cs' m2].
  simpl in *. destruct to_remove.
  - split; [by constructor | done].
  - split; [by constructor | constructor; auto].
Qed.

Lemma remove_empty_elements_ok e : remove_spec e.
Proof.
  induction e as [t a cs IH] using Element_ind'.
  unfold remove_spec. rewrite remove_empty_elements_eq.
  destruct (remove_loop_spec cs IH) as [Hemb Hkept].
  destruct (remove_loop cs) as [cs' m]. simpl in *. split_and!.
  - constructor; [apply attrib_kept_refl | done].
  - done.
  - constructor. done.
Qed.

Lemma pruned_reached e p x c :
  pruned e → reached e p = Some x → c ∈ children x →
  tag c ∈ ["props"; "animations"; "textures"] → children c ≠ [].
Proof.
  revert e. induction p as [| i p IH]; intros e Hp Hr Hin Htag; simpl in Hr.
  - simplify_eq. destruct Hp as [e Hall].
    by apply (proj1 (Forall_forall _ _) Hall c Hin).
  - destruct (children e !! i) as [d |] eqn:Hd; [| done].
    case_bool_decide as Hs; [| done].
    destruct Hp as [e Hall].
    apply (IH d); [| done..].
    by apply (Forall_lookup_1 _ _ _ _ Hall Hd).
Qed.

(** ** The two rules of [visit_child] for variants and groups *)

Lemma visit_child_variant c :
  tag c = "variant" →
  visit_child c
  = let '(c', m) := remove_empty_elements c in
    (c',
     bool_decide (children c' = [])
     && negb (truthy (attrib c' !! "file"))
     && bool_decide (attrib c' !! "frequency" = Some "0"),
     m).
Proof. intros Ht. unfold visit_child. by rewrite Ht. Qed.

Lemma visit_child_group c :
  tag c = "group" →
  visit_child c
  = let '(c', m) := remove_empty_elements c in
    (c',
     match children c' with
     | [] => true
     | [variant] =>
         bool_decide (tag variant = "variant")
         && (bool_decide (children variant = [])
             && negb (truthy (attrib variant !! "file"))
             && bool_decide (attrib variant !! "frequency" ∈ [Some "0"; Some "100"]))
     | _ => false
     end,
     m).
Proof. intros Ht. unfold visit_child. by rewrite Ht. Qed.

(** The second loop removes exactly the children listed by the first. *)
Lemma remove_loop_omap cs :
  (remove_loop cs).1
  = omap (λ c, if (visit_child c).1.2 then None else Some (visit_child c).1.1) cs.
Proof.
  induction cs as [| c cs IH]; [done |].
  rewrite remove_loop_cons. cbn [omap list_omap]. rewrite <- IH.
  destruct (visit_child c) as [[c' to_remove] m1], (remove_loop cs) as [cs' m2].
  by destruct to_remove.
Qed.

Lemma remove_empty_elements_children e :
  children (remove_empty_elements e).1
  = omap (λ c, if (visit_child c).1.2 then None else Some (visit_child c).1.1)
         (children e).
Proof.
  destruct e as [t a cs]. rewrite remove_empty_elements_eq. cbn [children].
  rewrite <- remove_loop_omap. by destruct (remove_loop cs).
Qed.

(** ** Positions: [iter], [findall] and [subtree] *)

Lemma iter_eq e : iter e = ([], e) :: iter_children 0 (children e).
Proof. by destruct e. Qed.

Lemma subtree_app e p q :
  subtree e (p ++ q) = subtree e p ≫= λ c, subtree c q.
Proof.
  revert e. induction p as [| i p IH]; intros e; simpl; [done |].
  destruct (children e !! i); [apply IH | done].
Qed.

Lemma subtree_snoc e p i x :
  subtree e (p ++ [i]) = Some x ↔ ∃ c, subtree e p = Some c ∧ children c !! i = Some x.
Proof.
  rewrite subtree_app. destruct (subtree e p) as [c |]; simpl.
  - destruct (children c !! i) as [y |] eqn:Hy; naive_solver.
  - naive_solver.
Qed.

Lemma iter_children_spec n cs :
  Forall (λ c, ∀ p x, (p, x) ∈ iter c ↔ subtree c p = Some x) cs →
  ∀ p x, (p, x) ∈ iter_children n cs
         ↔ ∃ i p' c, p = (n + i) :: p' ∧ cs !! i = Some c ∧ subtree c p' = Some x.
Proof.
  intros Hall. revert n. induction Hall as [| c cs Hc _ IH]; intros n p x.
  - simpl. rewrite elem_of_nil. split; [done |]. by intros (i & ? & ? & _ & ? & _).
  - change (iter_children n (c :: cs)) with
      (((λ qd : path * Element, (n :: qd.1, qd.2)) <$> iter c) ++ iter_children (S n) cs).
    rewrite elem_of_app, list_elem_of_fmap, IH. split.
    + intros [([q d] & [= -> ->] & Hin) | (i & p' & d & -> & Hi & Hs)].
      * exists 0, q, c. rewrite Nat.add_0_r. split_and!; [done..|]. by apply Hc.
      * exists (S i), p', d. split_and!; [f_equal; lia | done..].
    + intros ([| i] & p' & d & -> & Hi & Hs); simpl in Hi.
      * left. simplify_eq. exists (p', x). rewrite Nat.add_0_r.
        split; [done |]. by apply Hc.
      * right. exists i, p', d. split_and!; [f_equal; lia | done..].
Qed.

Lemma iter_spec e p x : (p, x) ∈ iter e ↔ subtree e p = Some x.
Proof.
  revert p x. induction e as [t a cs IH] using Element_ind'. intros p x.
  rewrite iter_eq, elem_of_cons, (iter_children_spec 0 _ IH). simpl. split.
  - intros [[= -> ->] | (i & p' & c & -> & Hi & Hs)]; [done |].
    simpl. by rewrite Hi.
  - destruct p as [| i p']; simpl; [intros [= ->]; by left |].
    destruct (cs !! i) as [c |] eqn:Hi; [| done]. intros Hs. right. by exists i, p', c.
Qed.

Lemma select_descendant_spec t result p x :
  (p, x) ∈ select_descendant t result
  ↔ ∃ p0 e0 q, (p0, e0) ∈ result ∧ p = p0 ++ q ∧ q ≠ []
               ∧ subtree e0 q = Some x ∧ tag x = t.
Proof.
  unfold select_descendant. rewrite list_elem_of_bind. split.
  - intros ([p0 e0] & Hin & Hres). simpl in Hin.
    apply list_elem_of_fmap in Hin as ([q d] & [= -> ->] & Hin).
    apply list_elem_of_filter in Hin as [[Ht Hq] Hin]. simpl in *.
    exists p0, e0, q. split_and!; [done..| by apply iter_spec | done].
  - intros (p0 & e0 & q & Hres & -> & Hq & Hs & Ht).
    exists (p0, e0). split; [| done]. simpl.
    apply list_elem_of_fmap. exists (q, x). split; [done |].
    apply list_elem_of_filter. split; [done | by apply iter_spec].
Qed.

Lemma select_child_spec t result p x :
  (p, x) ∈ select_child t result
  ↔ ∃ p0 e0 i, (p0, e0) ∈ result ∧ p = p0 ++ [i]
               ∧ children e0 !! i = Some x ∧ tag x = t.
Proof.
  unfold select_child. rewrite list_elem_of_bind. split.
  - intros ([p0 e0] & Hin & Hres). simpl in Hin.
    apply list_elem_of_filter in Hin as [Ht Hin]. simpl in Ht.
    apply elem_of_lookup_imap in Hin as (i & c & [= -> ->] & Hi).
    by exists p0, e0, i.
  - intros (p0 & e0 & i & Hres & -> & Hi & Ht).
    exists (p0, e0). split; [| done]. simpl.
    apply list_elem_of_filter. split; [done |].
    apply elem_of_lookup_imap. by exists i, x.
Qed.

Lemma findall_desc_spec t root p x :
  (p, x) ∈ findall_desc t root ↔ p ≠ [] ∧ subtree root p = Some x ∧ tag x = t.
Proof.
  unfold findall_desc. rewrite select_descendant_spec. split.
  - intros (p0 & e0 & q & Hin & -> & Hq & Hs & Ht).
    apply list_elem_of_singleton in Hin as [= -> ->]. done.
  - intros (Hp & Hs & Ht). exists [], root, p. split_and!; try done.
    by apply list_elem_of_singleton.
Qed.

(** [.//props/prop] selects the children tagged [prop] of the elements
    tagged [props] below the root. *)
Lemma findall_props_prop_spec root p x :
  (p, x) ∈ findall_props_prop root
  ↔ ∃ q i props, p = q ++ [i] ∧ q ≠ [] ∧ subtree root q = Some props
                 ∧ tag props = "props"
                 ∧ children props !! i = Some x ∧ tag x = "prop".
Proof.
  unfold findall_props_prop. rewrite select_child_spec. split.
  - intros (q & props & i & Hin & -> & Hi & Ht).
    apply (findall_desc_spec "props") in Hin as (Hq & Hs & Hp).
    by exists q, i, props.
  - intros (q & i & props & -> & Hq & Hs & Hp & Hi & Ht).
    exists q, props, i. split_and!; try done.
    by apply (findall_desc_spec "props").
Qed.

(** [.//variant/props/prop] asks in addition that the [props] element is
    the child of a [variant] below the root. *)
Lemma findall_variant_props_prop_spec root p x :
  (p, x) ∈ findall_variant_props_prop root
  ↔ ∃ q j i variant props,
      p = (q ++ [j]) ++ [i] ∧ q ≠ [] ∧ subtree root q = Some variant
      ∧ tag variant = "variant"
      ∧ children variant !! j = Some props ∧ tag props = "props"
      ∧ children props !! i = Some x ∧ tag x = "prop".
Proof.
  unfold findall_variant_props_prop. rewrite select_child_spec. split.
  - intros (q' & props & i & Hin & -> & Hi & Ht).
    apply select_child_spec in Hin as (q & variant & j & Hin & -> & Hj & Hp).
    apply (findall_desc_spec "variant") in Hin as (Hq & Hs & Hv).
    by exists q, j, i, variant, props.
  - intros (q & j & i & variant & props & -> & Hq & Hs & Hv & Hj & Hp & Hi & Ht).
    exists (q ++ [j]), props, i. split_and!; try done.
    apply select_child_spec. exists q, variant, j. split_and!; try done.
    by apply (findall_desc_spec "variant").
Qed.

Lemma findall_variant_props_prop_subseteq root :
  findall_variant_props_prop root ⊆ findall_props_prop root.
Proof.
  intros [p x] Hin.
  apply findall_variant_props_prop_spec in Hin
    as (q & j & i & variant & props & -> & Hq & Hs & Hv & Hj & Hp & Hi & Ht).
  apply findall_props_prop_spec. exists (q ++ [j]), i, props.
  split_and!; try done.
  - by destruct q.
  - apply subtree_snoc. by exists variant.
Qed.

Lemma any_blood_true prop_nodes :
  any_blood prop_nodes = true ↔ ∃ pe, pe ∈ prop_nodes ∧ is_blood pe.2 = true.
Proof.
  unfold any_blood. rewrite existsb_exists.
  by setoid_rewrite list_elem_of_In.
Qed.

Lemma has_blood_second_scan root :
  has_blood root = any_blood (findall_props_prop root).
Proof.
  unfold has_blood.
  destruct (any_blood (findall_variant_props_prop root)) eqn:H1; [| done].
  simpl. symmetry. apply any_blood_true in H1 as (pe & Hin & Hb).
  apply any_blood_true. exists pe. split; [| done].
  by apply findall_variant_props_prop_subseteq.
Qed.

(** What the detection finds. *)
Lemma has_blood_true root :
  has_blood root = true
  ↔ ∃ q i props prop,
      q ≠ [] ∧ subtree root q = Some props ∧ tag props = "props"
      ∧ children props !! i = Some prop ∧ tag prop = "prop"
      ∧ is_blood prop = true.
Proof.
  rewrite has_blood_second_scan, any_blood_true. split.
  - intros ([p x] & Hin & Hb).
    apply findall_props_prop_spec in Hin as (q & i & props & -> & ?). simpl in Hb.
    exists q, i, props, x. naive_solver.
  - intros (q & i & props & prop & Hq & Hs & Hp & Hi & Ht & Hb).
    exists (q ++ [i], prop). split; [| done].
    apply findall_props_prop_spec. by exists q, i, props.
Qed.

(** When no [<props>] below the root has a child that mentions blood,
    the detection finds nothing. *)
Lemma has_blood_clean root :
  Forall (everywhere props_clean) (children root) → has_blood root = false.
Proof.
  intros Hall. destruct (has_blood root) eqn:Hb; [| done].
  apply has_blood_true in Hb as (q & i & props & prop & Hq & Hs & Hp & Hi & _ & Hb).
  pose proof (below_everywhere_subtree _ _ _ _ Hall Hq Hs Hp) as Hclean.
  apply list_elem_of_lookup_2 in Hi.
  rewrite (proj1 (Forall_forall _ _) Hclean _ Hi) in Hb. done.
Qed.

(** The positions of a tree, as a list, to decide statements about all of
    them. *)
Lemma Forall_iter_subtree (Q : path → Element → Prop) e :
  Forall (λ pe, Q pe.1 pe.2) (iter e) → ∀ p x, subtree e p = Some x → Q p x.
Proof.
  intros Hall p x Hs. apply iter_spec in Hs.
  by apply (proj1 (Forall_forall _ _) Hall (p, x)).
Qed.

(** ** The store *)

Lemma store_of_lookup root p e :
  subtree root p = Some e → store_of root !! p = Some (cell_of p e).
Proof.
  intros Hs. unfold store_of.
  destruct (list_to_map _ !! p) as [c |] eqn:Hc.
  - apply elem_of_list_to_map_2, list_elem_of_fmap in Hc as ([q d] & [= -> ->] & Hin).
    apply iter_spec in Hin. simpl in *. congruence.
  - apply not_elem_of_list_to_map in Hc. destruct Hc.
    apply list_elem_of_fmap. exists (p, cell_of p e). split; [done |].
    apply list_elem_of_fmap. exists (p, e). split; [done | by apply iter_spec].
Qed.

Lemma is_blood_element_of s s' q :
  cattrib <$> s !! q = cattrib <$> s' !! q →
  is_blood (element_of s 0 q) = is_blood (element_of s' 0 q).
Proof.
  intros H. unfold is_blood. simpl.
  destruct (s !! q) as [c |], (s' !! q) as [c' |]; simplify_eq/=; congruence.
Qed.

(** A loop that applies the same change to the cells of a list changes
    each listed cell once, when a second application changes nothing. *)
Lemma foldl_alter_lookup (f : Cell → Cell) (ps : list path) (s : gmap path Cell) (q : path) :
  (∀ c, f (f c) = f c) →
  foldl (λ s p, alter f p s) s ps !! q
  = if bool_decide (q ∈ ps) then f <$> s !! q else s !! q.
Proof.
  intros Hf. revert s. induction ps as [| p ps IH]; intros s; simpl.
  - done.
  - rewrite IH. destruct (decide (q = p)) as [-> | Hne].
    + rewrite lookup_alter_eq, (bool_decide_eq_true_2 (p ∈ p :: ps)) by left.
      case_bool_decide; [| done]. destruct (s !! p); simpl; by rewrite ?Hf.
    + rewrite lookup_alter_ne by done.
      apply (f_equal (λ b : bool, if b then _ else _)), bool_decide_ext.
      rewrite elem_of_cons. naive_solver.
Qed.

(** *** The loop over [.//props] leaves [modified] alone *)

Lemma keep_clean_same_attribs s0 s c :
  same_attribs s0 s → keep_clean s c = keep_clean s0 c.
Proof.
  intros H. unfold keep_clean. f_equal. apply list_filter_iff. intros q.
  by rewrite (is_blood_element_of s s0 q).
Qed.

Lemma keep_clean_idemp s0 c : keep_clean s0 (keep_clean s0 c) = keep_clean s0 c.
Proof.
  unfold keep_clean. simpl. f_equal. rewrite list_filter_filter.
  apply list_filter_iff. naive_solver.
Qed.

(** [props.find("..")] never finds anything: every key of the parent map
    names a child of an element at or below [props], and [props] is not
    below itself. *)
Lemma iter_names_below s fuel (p q : path) :
  tree_like s → q ∈ iter_names s fuel p → ∃ r, q = p ++ r.
Proof.
  intros Htree. revert p. induction fuel as [| fuel IH]; intros p Hq; simpl in Hq.
  - apply list_elem_of_singleton in Hq as ->. exists []. by rewrite app_nil_r.
  - apply elem_of_cons in Hq as [-> | Hq]; [exists []; by rewrite app_nil_r |].
    apply list_elem_of_bind in Hq as (k & Hq & Hk).
    destruct (Htree _ _ Hk) as [i ->]. destruct (IH _ Hq) as [r ->].
    exists (i :: r). by rewrite <- app_assoc.
Qed.

Lemma foldl_insert_lookup_None (l : list (path * path)) (m : gmap path path) k :
  m !! k = None → k ∉ l.*1 →
  foldl (λ m ep, <[ep.1 := ep.2]> m) m l !! k = None.
Proof.
  revert m. induction l as [| [e p] l IH]; intros m Hm Hk; [done |].
  rewrite fmap_cons in Hk. apply not_elem_of_cons in Hk as [Hne Hk]. simpl.
  apply IH; [| done]. by rewrite lookup_insert_ne.
Qed.

Lemma find_parent_None s fuel (elem : path) :
  tree_like s → find_parent s fuel elem = None.
Proof.
  intros Htree. unfold find_parent, parent_map.
  apply foldl_insert_lookup_None; [done |].
  intros ([e p] & -> & Hin)%list_elem_of_fmap.
  apply list_elem_of_bind in Hin as (q & Hin & Hq).
  apply list_elem_of_fmap in Hin as (k & [= -> ->] & Hk).
  simpl in Hq. destruct (iter_names_below _ _ _ _ Htree Hq) as [r Hr].
  destruct (Htree _ _ Hk) as [i Hi]. rewrite Hr in Hi.
  apply (f_equal length) in Hi. rewrite !length_app in Hi. simpl in Hi. lia.
Qed.

Lemma store_of_tree_like root : tree_like (store_of root).
Proof.
  intros q k. unfold kids, store_of.
  destruct (list_to_map _ !! q) as [c |] eqn:Hc; simpl; [| by intros ?%elem_of_nil].
  apply elem_of_list_to_map_2, list_elem_of_fmap in Hc as ([q' d] & [= -> ->] & _).
  simpl. intros (i & x & -> & _)%elem_of_lookup_imap. by exists i.
Qed.

Lemma props_loop_body_eq s0 fuel s m (p : path) :
  same_attribs s0 s → tree_like s →
  props_loop_body fuel (s, m) p = (alter (keep_clean s0) p s, m)
  ∧ same_attribs s0 (alter (keep_clean s0) p s)
  ∧ tree_like (alter (keep_clean s0) p s).
Proof.
  intros Hsame Htree.
  assert (tree_like (alter (keep_clean s0) p s)) as Htree'.
  { intros q k. unfold kids. destruct (decide (q = p)) as [-> | Hne].
    - rewrite lookup_alter_eq. specialize (Htree p k). unfold kids in Htree.
      destruct (s !! p) as [c |]; simpl in *; [| done].
      intros [_ Hk]%list_elem_of_filter. by apply Htree.
    - rewrite lookup_alter_ne by done. apply Htree. }
  split_and!; [| | done].
  - unfold props_loop_body.
    change (alter (λ c, mkCell (ctag c) (cattrib c) _) p s) with (alter (keep_clean s) p s).
    rewrite (alter_ext (keep_clean s) (keep_clean s0))
      by (intros; by apply keep_clean_same_attribs).
    rewrite find_parent_None by done. by case_bool_decide.
  - intros q. rewrite <- Hsame. destruct (decide (q = p)) as [-> | Hne].
    + rewrite lookup_alter_eq. by destruct (s !! p).
    + by rewrite lookup_alter_ne.
Qed.

Lemma props_loop_foldl s0 fuel (ps : list path) s m :
  same_attribs s0 s → tree_like s →
  foldl (props_loop_body fuel) (s, m) ps
  = (foldl (λ s p, alter (keep_clean s0) p s) s ps, m).
Proof.
  revert s. induction ps as [| p ps IH]; intros s Hsame Htree; [done |].
  cbn [foldl].
  destruct (props_loop_body_eq s0 fuel s m p Hsame Htree) as (-> & Hsame' & Htree').
  by apply IH.
Qed.

(** *** Reading the tree back *)

Lemma element_of_eq s fuel p :
  element_of s fuel p
  = match s !! p with
    | Some c =>
        mkElement (ctag c) (cattrib c)
                  match fuel with
                  | 0 => []
                  | S fuel' => element_of s fuel' <$> ckids c
                  end
    | None => mkElement "" ∅ []
    end.
Proof. by destruct fuel. Qed.

Lemma height_child e i c : children e !! i = Some c → height c < height e.
Proof.
  destruct e as [t a cs]. simpl. revert i.
  induction cs as [| d cs IH]; intros i Hi; [done |]. simpl.
  destruct i as [| i]; simpl in Hi.
  - simplify_eq. lia.
  - specialize (IH i Hi). lia.
Qed.

Lemma fmap_imap_positions (g : nat → path) (h : path → Element)
    (f : Element → Element) (cs : list Element) :
  (∀ i c, cs !! i = Some c → h (g i) = f c) →
  h <$> imap (λ i (_ : Element), g i) cs = f <$> cs.
Proof.
  revert g. induction cs as [| c cs IH]; intros g Hg; [done |].
  rewrite imap_cons, !fmap_cons, (Hg 0 c eq_refl). f_equal.
  apply (IH (g ∘ S)). intros i d Hi. apply (Hg (S i) d Hi).
Qed.

Lemma fmap_filter_imap_positions (g : nat → path) (h : path → Element)
    (f : Element → Element) (P' : path → Prop) `{!∀ q, Decision (P' q)}
    (P : Element → Prop) `{!∀ c, Decision (P c)} (cs : list Element) :
  (∀ i c, cs !! i = Some c → (P' (g i) ↔ P c) ∧ h (g i) = f c) →
  h <$> filter P' (imap (λ i (_ : Element), g i) cs) = f <$> filter P cs.
Proof.
  revert g. induction cs as [| c cs IH]; intros g Hg; [done |].
  rewrite imap_cons. destruct (Hg 0 c eq_refl) as [HP Hh].
  assert (h <$> filter P' (imap (λ i (_ : Element), (g ∘ S) i) cs) = f <$> filter P cs)
    as Hrest.
  { apply IH. intros i d Hi. apply (Hg (S i) d Hi). }
  rewrite !filter_cons.
  destruct (decide (P' (g 0))), (decide (P c)); [| tauto | tauto | exact Hrest].
  rewrite !fmap_cons, Hh. f_equal. exact Hrest.
Qed.

Lemma elem_of_findall_desc_positions t root p e :
  subtree root p = Some e →
  p ∈ (findall_desc t root).*1 ↔ p ≠ [] ∧ tag e = t.
Proof.
  intros Hs. rewrite list_elem_of_fmap. split.
  - intros ([q x] & -> & (Hq & Hx & Ht)%findall_desc_spec). simpl in *.
    split; [done | congruence].
  - intros [Hp Ht]. exists (p, e). split; [done |]. by apply findall_desc_spec.
Qed.

Lemma props_store_lookup root p e :
  subtree root p = Some e →
  props_store root !! p
  = Some (if bool_decide (p ≠ [] ∧ tag e = "props")
          then keep_clean (store_of root) (cell_of p e) else cell_of p e).
Proof.
  intros Hs. unfold props_store.
  rewrite foldl_alter_lookup by apply keep_clean_idemp.
  rewrite (store_of_lookup _ _ _ Hs).
  rewrite (bool_decide_ext _ _ (elem_of_findall_desc_positions "props" _ _ _ Hs)).
  by case_bool_decide.
Qed.

Lemma is_blood_at_child root p i c :
  subtree root (p ++ [i]) = Some c →
  is_blood (element_of (store_of root) 0 (p ++ [i])) = is_blood c.
Proof.
  intros Hs. rewrite element_of_eq, (store_of_lookup _ _ _ Hs). done.
Qed.

Lemma element_of_props_store root e :
  ∀ (p : path) (fuel : nat),
    subtree root p = Some e → (height e ≤ fuel)%nat → p ≠ [] →
    element_of (props_store root) fuel p = filter_props e.
Proof.
  induction e as [t a cs IH] using Element_ind'. intros p fuel Hs Hfuel Hp.
  rewrite element_of_eq, (props_store_lookup _ _ _ Hs).
  rewrite filter_props_eq, filter_props_below_fmap. cbn [tag].
  assert (∀ i c, cs !! i = Some c →
            subtree root (p ++ [i]) = Some c
            ∧ ∀ n, fuel = S n → element_of (props_store root) n (p ++ [i]) = filter_props c)
    as Hkids.
  { intros i c Hi.
    assert (subtree root (p ++ [i]) = Some c) as Hc.
    { apply subtree_snoc. by eexists. }
    split; [done |]. intros n ->.
    apply (proj1 (Forall_lookup _ _) IH i c Hi); [done | | by destruct p].
    pose proof (height_child (mkElement t a cs) i c Hi). lia. }
  destruct fuel as [| n].
  - assert (cs = []) as ->.
    { destruct cs as [| c cs]; [done |].
      pose proof (height_child (mkElement t a (c :: cs)) 0 c eq_refl). lia. }
    by repeat case_bool_decide.
  - case_bool_decide as Hprops.
    + rewrite bool_decide_eq_true_2 by naive_solver. simpl. f_equal.
      apply (fmap_filter_imap_positions (λ i, p ++ [i])). intros i c Hi.
      destruct (Hkids i c Hi) as [Hc Hn]. split; [| by apply Hn].
      by rewrite <- (is_blood_at_child _ _ _ _ Hc).
    + rewrite bool_decide_eq_false_2 by naive_solver. simpl. f_equal.
      apply (fmap_imap_positions (λ i, p ++ [i])). intros i c Hi.
      destruct (Hkids i c Hi) as [_ Hn]. by apply Hn.
Qed.

Lemma element_of_props_store_root root :
  element_of (props_store root) (height root) [] = filter_props_root root.
Proof.
  rewrite element_of_eq, (props_store_lookup root [] root eq_refl).
  rewrite bool_decide_eq_false_2 by naive_solver.
  unfold filter_props_root. rewrite filter_props_below_fmap. simpl. f_equal.
  destruct (height root) as [| n] eqn:Hh.
  - destruct (children root) as [| c cs] eqn:Hcs; [done |].
    pose proof (height_child root 0 c) as H. rewrite Hcs in H.
    specialize (H eq_refl). lia.
  - apply (fmap_imap_positions (λ i, [i])). intros i c Hi.
    apply element_of_props_store; [by simpl; rewrite Hi | | done].
    pose proof (height_child root i c Hi). lia.
Qed.

(** The loop over [.//props] computes [filter_props_root] and never sets
    [modified]. *)
Lemma props_loop_eq root : props_loop root = (filter_props_root root, false).
Proof.
  unfold props_loop.
  rewrite (props_loop_foldl (store_of root)) by (done || apply store_of_tree_like).
  by rewrite <- element_of_props_store_root.
Qed.

(** *** The loop over [.//variant] *)

Lemma give_frequency_Some c :
  is_Some (cattrib c !! "frequency") → give_frequency c = c.
Proof.
  intros [f Hf]. unfold give_frequency.
  by rewrite bool_decide_eq_false_2 by congruence.
Qed.

Lemma give_frequency_None c :
  cattrib c !! "frequency" = None → give_frequency c = set "frequency" "0" c.
Proof. intros Hf. unfold give_frequency. by rewrite bool_decide_eq_true_2. Qed.

Lemma give_frequency_is_Some c : is_Some (cattrib (give_frequency c) !! "frequency").
Proof.
  destruct (cattrib c !! "frequency") as [f |] eqn:Hf.
  - rewrite give_frequency_Some; by rewrite Hf.
  - rewrite give_frequency_None by done. simpl. by rewrite lookup_insert_eq.
Qed.

Lemma give_frequency_idemp c : give_frequency (give_frequency c) = give_frequency c.
Proof. apply give_frequency_Some, give_frequency_is_Some. Qed.

Lemma variant_loop_body_eq s m (p : path) :
  variant_loop_body (s, m) p
  = (alter give_frequency p s, m || lacks_frequency s p).
Proof.
  unfold variant_loop_body, lacks_frequency.
  destruct (s !! p) as [c |] eqn:Hc.
  - destruct (cattrib c !! "frequency") as [f |] eqn:Hf.
    + rewrite bool_decide_eq_false_2, orb_false_r by done. f_equal.
      symmetry. apply alter_id. intros c' ?. simplify_eq.
      apply give_frequency_Some. by rewrite Hf.
    + rewrite bool_decide_eq_true_2, orb_true_r by done. f_equal.
      apply alter_ext. intros c' ?. simplify_eq.
      by rewrite give_frequency_None.
  - rewrite orb_false_r. f_equal. symmetry. apply alter_id. intros c' ?. congruence.
Qed.

Lemma lacks_frequency_alter s (p q : path) :
  lacks_frequency (alter give_frequency p s) q
  = lacks_frequency s q && negb (bool_decide (q = p)).
Proof.
  unfold lacks_frequency. case_bool_decide as Hq; simpl.
  - subst q. rewrite lookup_alter_eq. destruct (s !! p) as [c |]; simpl; [| done].
    rewrite andb_false_r. apply bool_decide_eq_false_2.
    destruct (give_frequency_is_Some c) as [f Hf]. congruence.
  - rewrite lookup_alter_ne by done. by rewrite andb_true_r.
Qed.

Lemma existsb_lacks_frequency_alter s (p : path) (ps : list path) :
  lacks_frequency s p || existsb (lacks_frequency (alter give_frequency p s)) ps
  = lacks_frequency s p || existsb (lacks_frequency s) ps.
Proof.
  induction ps as [| q ps IH]; [done |]. simpl.
  rewrite lacks_frequency_alter. case_bool_decide as Hq; simpl.
  - subst q. rewrite andb_false_r. simpl.
    destruct (lacks_frequency s p); [done |]. simpl in *. done.
  - rewrite andb_true_r.
    destruct (lacks_frequency s p), (lacks_frequency s q); simpl in *; done.
Qed.

Lemma variant_loop_foldl (ps : list path) s m :
  foldl variant_loop_body (s, m) ps
  = (foldl (λ s p, alter give_frequency p s) s ps,
     m || existsb (lacks_frequency s) ps).
Proof.
  revert s m. induction ps as [| p ps IH]; intros s m.
  - simpl. by rewrite orb_false_r.
  - cbn [foldl existsb]. rewrite variant_loop_body_eq, IH. f_equal.
    rewrite <- !orb_assoc. f_equal. apply existsb_lacks_frequency_alter.
Qed.

Lemma variant_store_lookup root p e :
  subtree root p = Some e →
  variant_store root !! p
  = Some (if bool_decide (p ≠ [] ∧ tag e = "variant")
          then give_frequency (cell_of p e) else cell_of p e).
Proof.
  intros Hs. unfold variant_store.
  rewrite foldl_alter_lookup by apply give_frequency_idemp.
  rewrite (store_of_lookup _ _ _ Hs).
  rewrite (bool_decide_ext _ _ (elem_of_findall_desc_positions "variant" _ _ _ Hs)).
  by case_bool_decide.
Qed.

Lemma give_frequency_cell_of p t a cs :
  give_frequency (cell_of p (mkElement t a cs))
  = mkCell t
           match a !! "frequency" with
           | None => <["frequency" := "0"]> a
           | Some _ => a
           end
           (imap (λ i (_ : Element), p ++ [i]) cs).
Proof.
  unfold give_frequency, cell_of. simpl.
  destruct (a !! "frequency") eqn:Hf.
  - by rewrite bool_decide_eq_false_2 by congruence.
  - by rewrite bool_decide_eq_true_2.
Qed.

Lemma element_of_variant_store root e :
  ∀ (p : path) (fuel : nat),
    subtree root p = Some e → (height e ≤ fuel)%nat → p ≠ [] →
    element_of (variant_store root) fuel p = set_frequency e.
Proof.
  induction e as [t a cs IH] using Element_ind'. intros p fuel Hs Hfuel Hp.
  rewrite element_of_eq, (variant_store_lookup _ _ _ Hs), set_frequency_eq.
  cbn [tag].
  assert (match fuel with
          | 0 => []
          | S n => element_of (variant_store root) n
                     <$> imap (λ i (_ : Element), p ++ [i]) cs
          end = set_frequency <$> cs) as Hkids.
  { destruct fuel as [| n].
    - destruct cs as [| c cs]; [done |].
      pose proof (height_child (mkElement t a (c :: cs)) 0 c eq_refl). lia.
    - apply (fmap_imap_positions (λ i, p ++ [i])). intros i c Hi.
      apply (proj1 (Forall_lookup _ _) IH i c Hi); [| | by destruct p].
      + apply subtree_snoc. by eexists.
      + pose proof (height_child (mkElement t a cs) i c Hi). lia. }
  case_bool_decide as Hv.
  - rewrite bool_decide_eq_true_2 by naive_solver.
    rewrite give_frequency_cell_of. simpl. by rewrite Hkids.
  - rewrite bool_decide_eq_false_2 by naive_solver. simpl. by rewrite Hkids.
Qed.

Lemma element_of_variant_store_root root :
  element_of (variant_store root) (height root) [] = set_frequency_root root.
Proof.
  rewrite element_of_eq, (variant_store_lookup root [] root eq_refl).
  rewrite bool_decide_eq_false_2 by naive_solver.
  unfold set_frequency_root. simpl. f_equal.
  destruct (height root) as [| n] eqn:Hh.
  - destruct (children root) as [| c cs] eqn:Hcs; [done |].
    pose proof (height_child root 0 c) as H. rewrite Hcs in H.
    specialize (H eq_refl). lia.
  - apply (fmap_imap_positions (λ i, [i])). intros i c Hi.
    apply element_of_variant_store; [by simpl; rewrite Hi | | done].
    pose proof (height_child root i c Hi). lia.
Qed.

Lemma existsb_lacks_frequency root (l : list (path * Element)) :
  (∀ pe, pe ∈ l → subtree root pe.1 = Some pe.2) →
  existsb (lacks_frequency (store_of root)) l.*1 = existsb needs_frequency l.
Proof.
  induction l as [| [p e] l IH]; intros Hl; [done |].
  rewrite fmap_cons. cbn [existsb fst].
  rewrite IH by (intros; apply Hl; by right). f_equal.
  unfold lacks_frequency, needs_frequency.
  by rewrite (store_of_lookup root p e) by (apply (Hl (p, e)); by left).
Qed.

(** The loop over [.//variant] computes [set_frequency_root], and sets
    [modified] when one of the listed elements has no frequency. *)
Lemma variant_loop_eq root :
  variant_loop root
  = (set_frequency_root root,
     existsb needs_frequency (findall_desc "variant" root)).
Proof.
  unfold variant_loop. rewrite variant_loop_foldl.
  fold (variant_store root). rewrite element_of_variant_store_root. f_equal.
  simpl. apply existsb_lacks_frequency.
  intros [p e] Hin. by apply findall_desc_spec in Hin as (_ & ? & _).
Qed.

(** ** The whole run *)

Lemma clean_xml_run_no_blood root :
  has_blood root = false → clean_xml_run root = (root, None).
Proof. intros H. unfold clean_xml_run. by rewrite H. Qed.

(** A run that finds blood, with the two loops in their recursive form:
    [modified] is set by a missing frequency or by the pruner, by nothing
    else. *)
Lemma clean_xml_run_blood root :
  has_blood root = true →
  let r1 := filter_props_root root in
  let r2 := set_frequency_root r1 in
  let m2 := existsb needs_frequency (findall_desc "variant" r1) in
  let '(r3, m3) := remove_empty_elements r2 in
  clean_xml_run root = (r3, if m2 || m3 then Some r3 else None).
Proof.
  intros H. cbv zeta. unfold clean_xml_run.
  rewrite H, props_loop_eq, variant_loop_eq. cbn [negb orb].
  destruct (remove_empty_elements _) as [r3 m3].
  by destruct (_ || m3).
Qed.

(** What holds of the tree in memory after a run that found blood. *)
Lemma clean_xml_run_tree root :
  has_blood root = true →
  let root' := (clean_xml_run root).1 in
  embeds root root'
  ∧ Forall (everywhere props_clean) (children root')
  ∧ Forall (everywhere has_frequency) (children root')
  ∧ pruned root'.
Proof.
  intros H. pose proof (clean_xml_run_blood root H) as Hrun. cbv zeta in Hrun.
  destruct (filter_props_root_ok root) as [He1 Hc1].
  destruct (set_frequency_root_ok (filter_props_root root)) as [He2 Hf2].
  destruct (remove_empty_elements_ok (set_frequency_root (filter_props_root root)))
    as (He3 & _ & Hp3).
  destruct (remove_empty_elements _) as [r3 m3]. rewrite Hrun.
  simpl in *. split_and!.
  - eapply embeds_trans; [done |]. by eapply embeds_trans.
  - eapply (forest_everywhere_embeds _ props_clean_stable);
      [apply embeds_children, He3 |].
    by eapply (forest_everywhere_embeds _ props_clean_stable);
      [apply embeds_children, He2 |].
  - by eapply (forest_everywhere_embeds _ has_frequency_stable);
      [apply embeds_children, He3 |].
  - done.
Qed.

Lemma clean_xml_Some root out :
  clean_xml root = Some out →
  has_blood root = true ∧ out = (clean_xml_run root).1.
Proof.
  unfold clean_xml. destruct (has_blood root) eqn:H.
  - pose proof (clean_xml_run_blood root H) as Hrun. cbv zeta in Hrun.
    destruct (remove_empty_elements _) as [r3 m3]. rewrite Hrun. simpl.
    destruct (_ || m3); [| done]. by intros [= ->].
  - by rewrite clean_xml_run_no_blood.
Qed.

Lemma embeds_run root : embeds root (clean_xml_run root).1.
Proof.
  destruct (has_blood root) eqn:H.
  - by apply clean_xml_run_tree.
  - rewrite clean_xml_run_no_blood; [apply embeds_refl | done].
Qed.

(** ** The examples of the specification *)

Example ex1 : clean_xml doc_example1 = Some (elem "actor" [] []).
Proof. vm_compute. reflexivity. Qed.

Example ex2 :
  clean_xml doc_example2
  = Some (elem "actor" []
            [elem "group" []
               [elem "variant" [("file", "hero_skin.asset"); ("frequency", "0")] []]]).
Proof. vm_compute. reflexivity. Qed.

(** The test on the [actor] attribute ignores the case of the letters. *)
Example is_blood_examples :
  is_blood (elem "prop" [("actor", "Gore_BLOOD_01")] []) = true
  ∧ is_blood (elem "prop" [("actor", "props/helmet.xml")] []) = false
  ∧ is_blood (elem "prop" [] []) = false.
Proof. by vm_compute. Qed.

(** Example 3: the emptied variant keeps its frequency ["100"] and stays,
    and so does the group, which has two children. *)
Example ex3 :
  clean_xml
    (elem "actor" []
       [elem "group" []
          [elem "variant" [("frequency", "100")]
             [elem "props" [] [elem "prop" [("actor", "BloodDecal")] []]];
           elem "variant" [("frequency", "1"); ("file", "a.xml")] []]])
  = Some (elem "actor" []
            [elem "group" []
               [elem "variant" [("frequency", "100")] [];
                elem "variant" [("frequency", "1"); ("file", "a.xml")] []]]).
Proof. by vm_compute. Qed.

(** * The claims of the specification *)

(** Claim C1 says that every document in which the detection finds a
    [<prop>] mentioning blood is serialised and written.  [clean_xml]
    does not do that: on [doc_two_props] the detection succeeds and the
    loop over [.//props] removes the prop from the tree in memory, but the
    [<props>] is not empty afterwards, the variant has a frequency and
    nothing is pruned, so [modified] is never set and [clean_xml] returns
    [None], against its own docstring ("None if no changes were
    needed"). *)
Theorem blood_removed_but_nothing_written :
  has_blood doc_two_props = true
  ∧ clean_xml_run doc_two_props = (doc_two_props_after, None)
  ∧ children doc_two_props_after ≠ children doc_two_props.
Proof.
  split_and!; [by vm_compute | by vm_compute |].
  intros H. by vm_compute in H.
Qed.

(** Claim C2 as stated fails: the loop over [.//props] filters the
    children of [<props>] elements only, so in the output of
    [doc_prop_under_variant] the [<prop>] that sits directly under the
    [<variant>] still mentions blood. *)
Lemma prop_under_variant_survives :
  clean_xml doc_prop_under_variant = Some doc_prop_under_variant_out
  ∧ ¬ no_blood_prop doc_prop_under_variant_out.
Proof.
  split; [by vm_compute |]. intros H.
  by specialize (H [0; 0; 0] (elem "prop" [("actor", "Gore_blood")] [])
                   eq_refl eq_refl).
Qed.

(** Claim C2, amended: in every document that produces output, no child
    of a [<props>] element below the root mentions blood in its [actor]
    attribute, at any depth. *)
Theorem output_props_hold_no_blood root out q props c :
  clean_xml root = Some out →
  q ≠ [] → subtree out q = Some props → tag props = "props" →
  c ∈ children props → is_blood c = false.
Proof.
  intros [Hb ->]%clean_xml_Some Hq Hs Ht Hin.
  destruct (clean_xml_run_tree root Hb) as (_ & Hclean & _).
  pose proof (below_everywhere_subtree _ _ _ _ Hclean Hq Hs Ht) as Hall.
  by apply (proj1 (Forall_forall _ _) Hall).
Qed.

(** The theorem on [doc_prop_under_variant]: the helmet stays. *)
Lemma output_props_hold_no_blood_witness :
  clean_xml doc_prop_under_variant = Some doc_prop_under_variant_out
  ∧ is_blood (elem "prop" [("actor", "props/helmet.xml")] []) = false.
Proof.
  split; [by vm_compute |].
  apply (output_props_hold_no_blood
           doc_prop_under_variant doc_prop_under_variant_out [0; 0; 1]
           (elem "props" [] [elem "prop" [("actor", "props/helmet.xml")] []])).
  - by vm_compute.
  - discriminate.
  - reflexivity.
  - reflexivity.
  - simpl. apply list_elem_of_here.
Defined.

(** Claim C3 as stated fails: both scans look for [<prop>] children of a
    [<props>] element, so the [<prop>] of Example 4, directly under the
    [<variant>], is not detected and the document is not written. *)
Lemma prop_under_variant_not_detected :
  ¬ ((∃ p x, subtree doc_example4 p = Some x ∧ tag x = "prop" ∧ is_blood x = true)
     → has_blood doc_example4 = true).
Proof.
  intros H. assert (has_blood doc_example4 = true) as Hb; [| by vm_compute in Hb].
  apply H. by exists [0; 0; 0], (elem "prop" [("actor", "Gore_blood")] []).
Qed.

(** Claim C3, amended: the detection succeeds exactly when some [<props>]
    element below the root has a child tagged [prop] whose [actor]
    attribute contains "blood", whatever the case of the letters. *)
Theorem detection_scans_props_children root :
  has_blood root = true
  ↔ ∃ q i props prop,
      q ≠ [] ∧ subtree root q = Some props ∧ tag props = "props"
      ∧ children props !! i = Some prop ∧ tag prop = "prop"
      ∧ contains "blood" (lower (default "" (attrib prop !! "actor"))) = true.
Proof. apply has_blood_true. Qed.

(** Claim C4: a document in which no [<prop>] mentions blood is not
    written and the tree is left as it was, whatever else could be
    normalised in it. *)
Theorem no_blood_no_output root :
  no_blood_prop root → clean_xml_run root = (root, None).
Proof.
  intros H. apply clean_xml_run_no_blood.
  destruct (has_blood root) eqn:Hb; [| done].
  apply has_blood_true in Hb as (q & i & props & prop & _ & Hs & _ & Hi & Ht & Hb).
  rewrite (H (q ++ [i]) prop) in Hb; [done | | done].
  apply subtree_snoc. by exists props.
Qed.

(** The theorem on [doc_anomalies], which has nothing to filter but a
    missing frequency, an empty group and an empty container. *)
Lemma no_blood_no_output_witness :
  no_blood_prop doc_anomalies
  ∧ clean_xml_run doc_anomalies = (doc_anomalies, None).
Proof.
  assert (no_blood_prop doc_anomalies) as H.
  { assert (Forall (λ pe : path * Element, tag pe.2 = "prop" → is_blood pe.2 = false)
                   (iter doc_anomalies)) as Hall.
    { apply (bool_decide_unpack _). by vm_compute. }
    exact (Forall_iter_subtree (λ _ x, tag x = "prop" → is_blood x = false) _ Hall). }
  split; [done |]. by apply (no_blood_no_output doc_anomalies).
Defined.

(** Claim C5 as stated fails: [remove_empty_elements] recurses into
    [<variant>] and [<group>] children only.  In [doc_inline] the group
    is below an [<inline>] element, which is not entered, and the empty
    [<animations>] below it is still there in the output. *)
Lemma empty_container_survives :
  clean_xml doc_inline = Some doc_inline_out
  ∧ ¬ no_empty_container doc_inline_out.
Proof.
  split; [by vm_compute |]. intros H.
  apply (H [0; 0; 0; 0] (elem "animations" [] []) eq_refl); [| done].
  apply list_elem_of_further, list_elem_of_here.
Qed.

(** Claim C5, amended: in every document that produces output, no
    [<props>], [<animations>] or [<textures>] element that is a child of
    the root, or of a [<variant>] or [<group>] reached from the root
    through [<variant>] and [<group>] elements only, has zero children. *)
Theorem output_reached_containers_not_empty root out p x c :
  clean_xml root = Some out →
  reached out p = Some x → c ∈ children x →
  tag c ∈ ["props"; "animations"; "textures"] → children c ≠ [].
Proof.
  intros [Hb ->]%clean_xml_Some Hr Hin Ht.
  destruct (clean_xml_run_tree root Hb) as (_ & _ & _ & Hp).
  by eapply pruned_reached.
Qed.

(** The theorem on the [<props>] left in the output of
    [doc_prop_under_variant]. *)
Lemma output_reached_containers_not_empty_witness :
  clean_xml doc_prop_under_variant = Some doc_prop_under_variant_out
  ∧ children (elem "props" [] [elem "prop" [("actor", "props/helmet.xml")] []]) ≠ [].
Proof.
  split; [by vm_compute |].
  apply (output_reached_containers_not_empty
           doc_prop_under_variant doc_prop_under_variant_out [0; 0]
           (elem "variant" [("frequency", "0")]
              [elem "prop" [("actor", "Gore_blood")] [];
               elem "props" [] [elem "prop" [("actor", "props/helmet.xml")] []]])).
  - by vm_compute.
  - by vm_compute.
  - simpl. apply list_elem_of_further, list_elem_of_here.
  - simpl. apply list_elem_of_here.
Defined.

(** Claim C6 as stated fails in its "only when": the test on the file is
    [not child.get("file")], which also holds of an empty [file]
    attribute, so [variant_empty_file] goes to [to_remove] although it
    has a [file] attribute. *)
Lemma variant_with_empty_file_removed :
  remove_empty_elements (elem "actor" [] [variant_empty_file])
  = (elem "actor" [] [], true)
  ∧ ¬ ((visit_child variant_empty_file).1.2 = true →
       children (visit_child variant_empty_file).1.1 = []
       ∧ attrib variant_empty_file !! "file" = None
       ∧ attrib variant_empty_file !! "frequency" = Some "0").
Proof.
  split; [by vm_compute |].
  intros H. destruct H as (_ & Hfile & _); [by vm_compute |].
  by vm_compute in Hfile.
Qed.

(** Claim C6, amended: the pruner removes a [<variant>] child exactly
    when, after the recursion, it has no children, its [file] attribute
    is absent or empty and its frequency is ["0"];  it removes a
    [<group>] child exactly when, after the recursion, it has no children
    or its only child is a [<variant>] without children, with an absent
    or empty [file] and a frequency ["0"] or ["100"].  A childless
    [<variant>] with frequency ["100"] and no file is kept by the first
    rule, while a [<group>] holding only that variant is removed. *)
Theorem variant_and_group_rules (c : Element) :
  let c' := (remove_empty_elements c).1 in
  (∀ e, children (remove_empty_elements e).1
        = omap (λ d, if (visit_child d).1.2 then None else Some (visit_child d).1.1)
               (children e))
  ∧ (tag c = "variant" →
     (visit_child c).1.2 = true
     ↔ children c' = []
       ∧ truthy (attrib c !! "file") = false
       ∧ attrib c !! "frequency" = Some "0")
  ∧ (tag c = "group" →
     (visit_child c).1.2 = true
     ↔ children c' = []
       ∨ ∃ v, children c' = [v] ∧ tag v = "variant" ∧ children v = []
              ∧ truthy (attrib v !! "file") = false
              ∧ (attrib v !! "frequency" = Some "0"
                 ∨ attrib v !! "frequency" = Some "100"))
  ∧ (tag c = "variant" → children c = [] →
     truthy (attrib c !! "file") = false → attrib c !! "frequency" = Some "100" →
     (visit_child c).1.2 = false
     ∧ ∀ a, (visit_child (mkElement "group" a [c])).1.2 = true).
Proof.
  intros c'. split; [apply remove_empty_elements_children |].
  assert (tag c = "variant" →
          (visit_child c).1.2 = true
          ↔ children c' = [] ∧ truthy (attrib c !! "file") = false
            ∧ attrib c !! "frequency" = Some "0") as Hvariant.
  { intros Ht. rewrite (visit_child_variant _ Ht).
    destruct (remove_empty_elements_ok c) as (_ & Ha & _). subst c'.
    destruct (remove_empty_elements c) as [d m]. simpl in *. rewrite Ha.
    rewrite !andb_true_iff, !bool_decide_eq_true, negb_true_iff. naive_solver. }
  split; [done |]. split.
  - intros Ht. rewrite (visit_child_group _ Ht). subst c'.
    destruct (remove_empty_elements c) as [d m]. simpl.
    destruct (children d) as [| v [| w rest]].
    + naive_solver.
    + rewrite !andb_true_iff, !bool_decide_eq_true, negb_true_iff.
      rewrite !elem_of_cons, elem_of_nil. split.
      * intros (? & (? & ?) & [? | [? | []]]); right; exists v; naive_solver.
      * intros [? | (v' & [= <-] & ? & ? & ? & ?)]; [done | naive_solver].
    + split; [done |]. by intros [? | (v' & ? & _)].
  - intros Ht Hc Hfile Hfreq.
    assert ((visit_child c).1.2 = false) as Hkept.
    { apply not_true_is_false. intros Hv.
      apply (Hvariant Ht) in Hv as (_ & _ & Hv). congruence. }
    split; [done |]. intros a.
    rewrite visit_child_group by done.
    pose proof (remove_empty_elements_children (mkElement "group" a [c])) as Hch.
    cbn [children omap list_omap] in Hch. rewrite Hkept in Hch.
    assert ((visit_child c).1.1 = c) as Hsame.
    { rewrite (visit_child_variant _ Ht).
      destruct c as [t b cs]. simpl in Hc. by subst cs. }
    rewrite Hsame in Hch.
    destruct (remove_empty_elements (mkElement "group" a [c])) as [g m].
    cbn [fst snd] in *. rewrite Hch.
    rewrite !andb_true_iff, !bool_decide_eq_true, negb_true_iff.
    rewrite !elem_of_cons. naive_solver.
Qed.

(** The asymmetry on [variant_full_frequency]. *)
Lemma variant_and_group_rules_witness :
  (visit_child variant_full_frequency).1.2 = false
  ∧ (visit_child (mkElement "group" ∅ [variant_full_frequency])).1.2 = true.
Proof.
  destruct (variant_and_group_rules variant_full_frequency) as (_ & _ & _ & H).
  destruct H as [Hvariant Hgroup];
    [reflexivity | reflexivity | by vm_compute | by vm_compute |].
  split; [exact Hvariant | exact (Hgroup ∅)].
Defined.

(** Claim C7 as stated fails: [root.findall(".//variant")] never selects
    the root, so the root of a variant file keeps its missing frequency
    and is a [<variant>] without frequency in the output. *)
Lemma root_variant_without_frequency :
  clean_xml doc_variant_root = Some (elem "variant" [] [])
  ∧ ¬ every_variant_has_frequency (elem "variant" [] []).
Proof.
  split; [by vm_compute |]. intros H.
  destruct (H [] (elem "variant" [] []) eq_refl eq_refl) as [f Hf].
  by vm_compute in Hf.
Qed.

(** Claim C7, amended: the normaliser keeps the shape of the tree and the
    tag of every element, sets [frequency] to ["0"] exactly on the
    [<variant>] elements below the root whose frequency is absent and
    changes no other attribute;  in every document that produces output,
    every [<variant>] below the root has a frequency. *)
Theorem frequency_set_below_root root :
  (∀ p e, subtree root p = Some e →
     ∃ e', subtree (variant_loop root).1 p = Some e'
           ∧ tag e' = tag e
           ∧ attrib e'
             = if bool_decide (p ≠ [] ∧ tag e = "variant"
                               ∧ attrib e !! "frequency" = None)
               then <["frequency" := "0"]> (attrib e) else attrib e)
  ∧ (∀ out p v, clean_xml root = Some out →
       p ≠ [] → subtree out p = Some v → tag v = "variant" →
       is_Some (attrib v !! "frequency")).
Proof.
  split.
  - intros p e Hs. rewrite variant_loop_eq. cbn [fst].
    destruct p as [| i p]; simpl in Hs.
    + simplify_eq. exists (set_frequency_root e).
      split_and!; [done..|]. rewrite bool_decide_eq_false_2; [done | naive_solver].
    + destruct (children root !! i) as [c |] eqn:Hi; [| done].
      destruct (set_frequency_subtree c p e Hs) as (e' & Hs' & Ht' & Ha').
      exists e'. split_and!; [| done |].
      * simpl. by rewrite list_lookup_fmap, Hi.
      * rewrite Ha'. apply (f_equal (λ b : bool, if b then _ else _)).
        apply bool_decide_ext. naive_solver.
  - intros out p v [Hb ->]%clean_xml_Some Hp Hs Ht.
    destruct (clean_xml_run_tree root Hb) as (_ & _ & Hfreq & _).
    by apply (below_everywhere_subtree _ _ _ _ Hfreq Hp Hs).
Qed.

(** The theorem on Example 2, whose variant gets the frequency ["0"]. *)
Lemma frequency_set_below_root_witness :
  clean_xml doc_example2
  = Some (elem "actor" []
            [elem "group" []
               [elem "variant" [("file", "hero_skin.asset"); ("frequency", "0")] []]])
  ∧ is_Some (attrib (elem "variant" [("file", "hero_skin.asset"); ("frequency", "0")] [])
               !! "frequency").
Proof.
  split; [by vm_compute |].
  apply (proj2 (frequency_set_below_root doc_example2)
           (elem "actor" []
              [elem "group" []
                 [elem "variant" [("file", "hero_skin.asset"); ("frequency", "0")] []]])
           [0; 0]).
  - by vm_compute.
  - discriminate.
  - reflexivity.
  - reflexivity.
Defined.

(** Claim C8: a second run on the tree that a first run produced finds no
    blood, returns [None] and leaves the tree as it is. *)
Theorem second_run_writes_nothing root out :
  clean_xml root = Some out → clean_xml_run out = (out, None).
Proof.
  intros [Hb ->]%clean_xml_Some.
  destruct (clean_xml_run_tree root Hb) as (_ & Hclean & _).
  by apply clean_xml_run_no_blood, has_blood_clean.
Qed.

(** The theorem on the output of [doc_prop_under_variant]. *)
Lemma second_run_writes_nothing_witness :
  clean_xml doc_prop_under_variant = Some doc_prop_under_variant_out
  ∧ clean_xml_run doc_prop_under_variant_out = (doc_prop_under_variant_out, None).
Proof.
  split; [by vm_compute |].
  apply (second_run_writes_nothing doc_prop_under_variant). by vm_compute.
Defined.

(** Claim C9: every element selected by [.//variant/props/prop] is
    selected by [.//props/prop] too, so the result of the detection is
    the result of the second scan alone. *)
Theorem first_scan_adds_nothing root :
  findall_variant_props_prop root ⊆ findall_props_prop root
  ∧ has_blood root = any_blood (findall_props_prop root).
Proof.
  split; [apply findall_variant_props_prop_subseteq | apply has_blood_second_scan].
Qed.

(** Claim C10: the tree in memory after a run, and so the tree that is
    written, is the input with some elements deleted: the elements that
    stay keep their tag, their order among their siblings and their
    attributes, except that a [<variant>] without frequency may have got
    the frequency ["0"]. *)
Theorem survivors_keep_order_and_attributes root :
  embeds root (clean_xml_run root).1
  ∧ from_option (embeds root) True (clean_xml root).
Proof.
  split; [apply embeds_run |].
  destruct (clean_xml root) as [out |] eqn:Hout; [| done]. simpl.
  apply clean_xml_Some in Hout as [_ ->]. apply embeds_run.
Qed.

(** * More on the stages of [clean_xml] *)

(** ** [remove_empty_elements]: the meaning of [modified] *)

Lemma remove_empty_elements_tag e : tag (remove_empty_elements e).1 = tag e.
Proof. destruct (remove_empty_elements_ok e) as (H & _). by apply embeds_tag. Qed.

Lemma remove_loop_length cs : (length (remove_loop cs).1 ≤ length cs)%nat.
Proof.
  induction cs as [| c cs IH]; [done |]. rewrite remove_loop_cons.
  destruct (visit_child c) as [[c' to_remove] m1], (remove_loop cs) as [cs' m2].
  simpl in *. destruct to_remove; simpl; lia.
Qed.

Lemma visit_child_flag c :
  flag_means_change c →
  (visit_child c).2 = false ↔ (visit_child c).1.1 = c.
Proof.
  unfold flag_means_change, visit_child. intros H.
  destruct (remove_empty_elements c) as [c' m]. simpl in H.
  repeat case_bool_decide; simpl; done.
Qed.

Lemma remove_loop_flag cs :
  Forall flag_means_change cs →
  (remove_loop cs).2 = false ↔ (remove_loop cs).1 = cs.
Proof.
  induction 1 as [| c cs Hc _ IH]; [done |]. rewrite remove_loop_cons.
  pose proof (visit_child_flag c Hc) as Hv.
  pose proof (remove_loop_length cs) as Hlen.
  destruct (visit_child c) as [[c' to_remove] m1], (remove_loop cs) as [cs' m2].
  simpl in *. destruct to_remove; simpl.
  - split; [done |]. intros ->. simpl in Hlen. lia.
  - rewrite orb_false_iff. split.
    + intros [Hm1 Hm2]. f_equal; [by apply Hv | by apply IH].
    + intros [= -> ->]. split; [by apply Hv | by apply IH].
Qed.

Lemma remove_empty_elements_flag e : flag_means_change e.
Proof.
  induction e as [t a cs IH] using Element_ind'.
  unfold flag_means_change. rewrite remove_empty_elements_eq.
  pose proof (remove_loop_flag cs IH) as H.
  destruct (remove_loop cs) as [cs' m]. simpl in *. rewrite H.
  split; [by intros -> | by intros [= ->]].
Qed.

(** ** [remove_empty_elements]: a second pass *)

Lemma settled_remove_loop cs :
  Forall (λ c, visit_child c = (c, false, false)
               ∧ (tag c ∈ ["variant"; "group"] → settled c)) cs →
  remove_loop cs = (cs, false).
Proof.
  induction 1 as [| c cs [Hc _] _ IH]; [done |].
  by rewrite remove_loop_cons, Hc, IH.
Qed.

Lemma settled_fixed e : settled e → remove_empty_elements e = (e, false).
Proof.
  intros [e' H]. destruct e' as [t a cs]. rewrite remove_empty_elements_eq.
  simpl in H. by rewrite (settled_remove_loop cs H).
Qed.

Lemma structural_cases t :
  t ∈ ["variant"; "group"] ↔ t = "variant" ∨ t = "group".
Proof. rewrite !elem_of_cons, elem_of_nil. naive_solver. Qed.

(** A child that the first loop keeps is, after the recursion, a child
    on which the loop has nothing to do. *)
Lemma visit_child_settled c :
  settled (remove_empty_elements c).1 →
  (visit_child c).1.2 = false →
  visit_child (visit_child c).1.1 = ((visit_child c).1.1, false, false)
  ∧ (tag (visit_child c).1.1 ∈ ["variant"; "group"] → settled (visit_child c).1.1).
Proof.
  intros Hset Hkeep. pose proof (remove_empty_elements_tag c) as Htag.
  pose proof (settled_fixed _ Hset) as Hfix.
  unfold visit_child in Hkeep |- *.
  destruct (remove_empty_elements c) as [c' m]. simpl in Htag, Hfix, Hset.
  case_bool_decide as Hcont; [| case_bool_decide as Hvar; [| case_bool_decide as Hgrp]];
    simpl in Hkeep |- *.
  - rewrite (bool_decide_eq_true_2 _ Hcont), Hkeep. split; [done |].
    intros Hs. by destruct (container_not_structural _ Hcont Hs).
  - rewrite Htag. rewrite (bool_decide_eq_false_2 _ Hcont), (bool_decide_eq_true_2 _ Hvar).
    rewrite Hfix, Hkeep. done.
  - rewrite Htag. rewrite (bool_decide_eq_false_2 _ Hcont), (bool_decide_eq_false_2 _ Hvar),
      (bool_decide_eq_true_2 _ Hgrp).
    rewrite Hfix, Hkeep. done.
  - rewrite (bool_decide_eq_false_2 _ Hcont), (bool_decide_eq_false_2 _ Hvar),
      (bool_decide_eq_false_2 _ Hgrp).
    split; [done |]. rewrite structural_cases. naive_solver.
Qed.

Lemma remove_loop_settled cs :
  Forall (λ c, settled (remove_empty_elements c).1) cs →
  Forall (λ c, visit_child c = (c, false, false)
               ∧ (tag c ∈ ["variant"; "group"] → settled c))
         (remove_loop cs).1.
Proof.
  induction 1 as [| c cs Hc _ IH]; [constructor |]. rewrite remove_loop_cons.
  pose proof (visit_child_settled c Hc) as Hv.
  destruct (visit_child c) as [[c' to_remove] m1], (remove_loop cs) as [cs' m2].
  simpl in *. destruct to_remove; [done |]. constructor; [by apply Hv | done].
Qed.

Lemma remove_empty_elements_settled e : settled (remove_empty_elements e).1.
Proof.
  induction e as [t a cs IH] using Element_ind'.
  rewrite remove_empty_elements_eq.
  pose proof (remove_loop_settled cs IH) as H.
  destruct (remove_loop cs) as [cs' m]. by constructor.
Qed.

Lemma settled_reached e p x c :
  settled e → reached e p = Some x → c ∈ children x →
  visit_child c = (c, false, false).
Proof.
  revert e. induction p as [| i p IH]; intros e Hs Hr Hin; simpl in Hr.
  - simplify_eq. destruct Hs as [e Hall].
    by apply (proj1 (Forall_forall _ _) Hall c Hin).
  - destruct (children e !! i) as [d |] eqn:Hd; [| done].
    case_bool_decide as Hstruct; [| done].
    destruct Hs as [e Hall].
    apply (IH d); [| done..].
    by apply (Forall_lookup_1 _ _ _ _ Hall Hd).
Qed.

Lemma settled_child_variant c :
  visit_child c = (c, false, false) → tag c = "variant" → ¬ empty_variant c.
Proof.
  intros Hv Ht (Hc & Hf & Hfreq). rewrite (visit_child_variant _ Ht) in Hv.
  destruct (remove_empty_elements c) as [c' m]. simplify_eq.
  rewrite Hc, Hf, Hfreq in *. done.
Qed.

Lemma settled_child_group c :
  visit_child c = (c, false, false) → tag c = "group" → ¬ useless_group c.
Proof.
  intros Hv Ht Hu. rewrite (visit_child_group _ Ht) in Hv.
  destruct (remove_empty_elements c) as [c' m]. simplify_eq.
  destruct Hu as [Hc | (v & Hc & Htv & Hcv & Hf & Hfreq)]; rewrite Hc in *; [done |].
  rewrite Hcv, Hf, (bool_decide_eq_true_2 _ Htv) in *.
  rewrite (bool_decide_eq_true_2 (attrib v !! "frequency" ∈ _)) in *; [done |].
  rewrite !elem_of_cons. naive_solver.
Qed.

(** ** The two loops: a second run, and the flag of the second loop *)

Lemma everywhere_of_subtree (Q : Element → Prop) e :
  (∀ p x, subtree e p = Some x → Q x) → everywhere Q e.
Proof.
  induction e as [t a cs IH] using Element_ind'. intros H.
  constructor; [by apply (H []) |]. simpl.
  apply Forall_lookup. intros i c Hi.
  apply (proj1 (Forall_lookup _ _) IH i c Hi). intros p x Hs.
  apply (H (i :: p)). simpl. by rewrite Hi.
Qed.

Lemma below_everywhere_of_subtree (Q : Element → Prop) root :
  (∀ p x, p ≠ [] → subtree root p = Some x → Q x) →
  Forall (everywhere Q) (children root).
Proof.
  intros H. apply Forall_lookup. intros i c Hi.
  apply everywhere_of_subtree. intros p x Hs.
  apply (H (i :: p)); [done |]. simpl. by rewrite Hi.
Qed.

Lemma everywhere_inv (Q : Element → Prop) e :
  everywhere Q e → Q e ∧ Forall (everywhere Q) (children e).
Proof. by intros [e' Hq Hall]. Qed.

Lemma fmap_fixed (f : Element → Element) (Q : Element → Prop) cs :
  Forall (λ c, Q c → f c = c) cs → Forall Q cs → f <$> cs = cs.
Proof.
  induction 1 as [| c cs Hc _ IH]; intros Hall; [done |].
  apply Forall_cons in Hall as [Hq Hall].
  by rewrite fmap_cons, (Hc Hq), (IH Hall).
Qed.

Lemma set_frequency_fixed e : everywhere has_frequency e → set_frequency e = e.
Proof.
  induction e as [t a cs IH] using Element_ind'.
  intros [Hq Hall]%everywhere_inv. simpl in Hall.
  rewrite set_frequency_eq. f_equal.
  - case_bool_decide as Ht; [| done]. destruct (Hq Ht) as [f Hf].
    simpl in Hf. by rewrite Hf.
  - by eapply fmap_fixed.
Qed.

Lemma set_frequency_root_fixed root :
  Forall (everywhere has_frequency) (children root) →
  set_frequency_root root = root.
Proof.
  intros Hall. destruct root as [t a cs]. unfold set_frequency_root. simpl in *.
  f_equal. induction Hall as [| c cs Hc _ IH]; [done |].
  by rewrite fmap_cons, (set_frequency_fixed _ Hc), IH.
Qed.

Lemma needs_frequency_true root :
  existsb needs_frequency (findall_desc "variant" root) = true
  ↔ ∃ p v, p ≠ [] ∧ subtree root p = Some v ∧ tag v = "variant"
           ∧ attrib v !! "frequency" = None.
Proof.
  rewrite existsb_exists. setoid_rewrite <- list_elem_of_In. split.
  - intros ([p v] & (Hp & Hs & Ht)%findall_desc_spec & Hn).
    apply bool_decide_eq_true in Hn. by exists p, v.
  - intros (p & v & Hp & Hs & Ht & Hf). exists (p, v).
    split; [by apply findall_desc_spec | by apply bool_decide_eq_true].
Qed.

Lemma needs_frequency_false root :
  existsb needs_frequency (findall_desc "variant" root) = false
  ↔ Forall (everywhere has_frequency) (children root).
Proof.
  split.
  - intros Hex. apply below_everywhere_of_subtree. intros p v Hp Hs Ht.
    destruct (attrib v !! "frequency") as [f |] eqn:Hf; [by eexists |].
    assert (existsb needs_frequency (findall_desc "variant" root) = true) as Hex'.
    { apply needs_frequency_true. by exists p, v. }
    congruence.
  - intros Hall. apply not_true_is_false.
    intros (p & v & Hp & Hs & Ht & Hf)%needs_frequency_true.
    destruct (below_everywhere_subtree _ _ _ _ Hall Hp Hs Ht) as [f Hf'].
    congruence.
Qed.

Lemma filter_props_fixed e : everywhere props_clean e → filter_props e = e.
Proof.
  induction e as [t a cs IH] using Element_ind'.
  intros [Hq Hall]%everywhere_inv. simpl in Hall.
  rewrite filter_props_eq. f_equal. rewrite filter_props_below_fmap.
  assert (filter_props <$> cs = cs) as Hcs by by eapply fmap_fixed.
  case_bool_decide as Ht; [| done].
  replace (filter (λ c, is_blood c = false) cs) with cs; [done |].
  specialize (Hq Ht). simpl in Hq. clear -Hq.
  induction Hq as [| c cs Hc _ IH]; [done |].
  by rewrite filter_cons_True, <- IH.
Qed.

Lemma filter_props_root_fixed root :
  Forall (everywhere props_clean) (children root) →
  filter_props_root root = root.
Proof.
  intros Hall. destruct root as [t a cs]. unfold filter_props_root. simpl in *.
  f_equal. rewrite filter_props_below_fmap.
  induction Hall as [| c cs Hc _ IH]; [done |].
  by rewrite fmap_cons, (filter_props_fixed _ Hc), IH.
Qed.

(** ** The whole run: the root, and when nothing is written *)

Lemma clean_xml_run_root root :
  tag (clean_xml_run root).1 = tag root
  ∧ attrib (clean_xml_run root).1 = attrib root.
Proof.
  destruct (has_blood root) eqn:Hb; [| by rewrite clean_xml_run_no_blood].
  pose proof (clean_xml_run_blood root Hb) as Hrun. cbv zeta in Hrun.
  pose proof (remove_empty_elements_tag (set_frequency_root (filter_props_root root)))
    as Ht.
  destruct (remove_empty_elements_ok (set_frequency_root (filter_props_root root)))
    as (_ & Ha & _).
  destruct (remove_empty_elements _) as [r3 m3]. rewrite Hrun. simpl in *.
  by rewrite Ht, Ha.
Qed.

Lemma has_blood_run root :
  has_blood root = true → has_blood (clean_xml_run root).1 = false.
Proof.
  intros Hb. destruct (clean_xml_run_tree root Hb) as (_ & Hclean & _).
  by apply has_blood_clean.
Qed.

Lemma clean_xml_None_iff root :
  has_blood root = true →
  clean_xml root = None ↔ (clean_xml_run root).1 = (props_loop root).1.
Proof.
  intros Hb. pose proof (clean_xml_run_blood root Hb) as Hrun. cbv zeta in Hrun.
  destruct (clean_xml_run_tree root Hb) as (_ & _ & Hfreq & _).
  unfold clean_xml. rewrite props_loop_eq. cbn [fst].
  set (r1 := filter_props_root root) in *.
  pose proof (remove_empty_elements_flag (set_frequency_root r1)) as Hflag.
  unfold flag_means_change in Hflag.
  destruct (remove_empty_elements (set_frequency_root r1)) as [r3 m3].
  rewrite Hrun in *. simpl in *. split.
  - destruct (existsb needs_frequency _) eqn:Hm2; [done |].
    destruct m3; [done |]. intros _.
    apply needs_frequency_false in Hm2.
    rewrite (proj1 Hflag eq_refl). by apply set_frequency_root_fixed.
  - intros ->.
    rewrite (proj2 (needs_frequency_false r1) Hfreq).
    rewrite (set_frequency_root_fixed _ Hfreq) in Hflag.
    by rewrite (proj2 Hflag eq_refl).
Qed.

(** ** A group of empty variants *)

Lemma visit_child_empty_variant v :
  tag v = "variant" → empty_variant v → (visit_child v).1.2 = true.
Proof.
  intros Ht (Hc & Hf & Hfreq). rewrite (visit_child_variant _ Ht).
  destruct v as [t a cs]. simpl in Hc, Hf, Hfreq. subst cs.
  rewrite remove_empty_elements_eq. simpl. rewrite Hf, Hfreq. done.
Qed.

Lemma remove_loop_all_removed cs :
  Forall (λ c, (visit_child c).1.2 = true) cs → (remove_loop cs).1 = [].
Proof.
  induction 1 as [| c cs Hc _ IH]; [done |]. rewrite remove_loop_cons.
  destruct (visit_child c) as [[c' to_remove] m1], (remove_loop cs) as [cs' m2].
  simpl in *. by subst.
Qed.

(** * [clean_and_copy_xml_files] *)

(** ** Paths *)

Lemma commonprefix_below (base rel : list string) :
  commonprefix base (base ++ rel) = base.
Proof.
  induction base as [| x base IH]; [by destruct rel |].
  simpl. by rewrite bool_decide_eq_true_2, IH.
Qed.

(** Below [start], [relpath] gives the path from [start], without [".."]. *)
Lemma relpath_below (base rel : list string) :
  rel ≠ [] → relpath (base ++ rel) base = rel.
Proof.
  intros Hrel. unfold relpath. rewrite commonprefix_below, Nat.sub_diag.
  rewrite drop_app_length. simpl. by rewrite bool_decide_eq_false_2.
Qed.

Lemma dirname_snoc (p : list string) name : dirname (p ++ [name]) = p.
Proof.
  unfold dirname. rewrite length_app. simpl.
  replace (length p + 1 - 1) with (length p) by lia. apply take_app_length.
Qed.

Lemma elem_of_prefixes (d p : list string) :
  p ∈ prefixes d ↔ ∃ n : nat, p = take n d.
Proof.
  unfold prefixes. rewrite list_elem_of_fmap. split.
  - intros (n & -> & _). by exists n.
  - intros [n ->]. exists (n `min` length d). split.
    + rewrite <- (take_ge d (length d)) at 1 by done. by rewrite take_take.
    + apply elem_of_seq. lia.
Qed.

(** ** The walk *)

Lemma walk_eq dirpath d :
  walk dirpath d = (dirpath, (folders d).*1, files d) :: walk_below dirpath (folders d).
Proof. by destruct d. Qed.

Lemma elem_of_walk_below dirpath l step :
  step ∈ walk_below dirpath l
  ↔ ∃ sub, sub ∈ l ∧ step ∈ walk (dirpath ++ [sub.1]) sub.2.
Proof.
  induction l as [| sub l IH].
  - simpl. rewrite elem_of_nil. split; [done |]. by intros (? & ?%elem_of_nil & _).
  - change (walk_below dirpath (sub :: l))
      with (walk (dirpath ++ [sub.1]) sub.2 ++ walk_below dirpath l).
    rewrite elem_of_app, IH. setoid_rewrite elem_of_cons. naive_solver.
Qed.

Lemma walk_has_file d :
  ∀ dirpath root names fs name doc,
    (root, names, fs) ∈ walk dirpath d → (name, doc) ∈ fs →
    ∃ rel, root = dirpath ++ rel ∧ has_file d (rel ++ [name]) doc.
Proof.
  induction d as [fs0 ds IH] using Folder_ind'.
  intros dirpath root names fs name doc Hin Hfile.
  rewrite walk_eq in Hin. apply elem_of_cons in Hin as [[= -> -> ->] | Hin].
  - exists []. rewrite app_nil_r. split; [done |]. by constructor.
  - apply elem_of_walk_below in Hin as ([n sub] & Hsub & Hin). simpl in *.
    destruct (proj1 (Forall_forall _ _) IH _ Hsub _ _ _ _ _ _ Hin Hfile)
      as (rel & -> & Hhas).
    exists (n :: rel). rewrite <- app_assoc. split; [done |].
    simpl. by eapply has_file_below.
Qed.

Lemma has_file_walk d rel' doc :
  has_file d rel' doc →
  ∀ dirpath, ∃ rel name names fs,
    rel' = rel ++ [name]
    ∧ (dirpath ++ rel, names, fs) ∈ walk dirpath d
    ∧ (name, doc) ∈ fs.
Proof.
  induction 1 as [d name doc Hin | d name sub rel' doc Hsub _ IH]; intros dirpath.
  - exists [], name, (folders d).*1, (files d). rewrite app_nil_r, walk_eq.
    split_and!; [done | by left | done].
  - destruct (IH (dirpath ++ [name])) as (rel & name0 & names & fs & -> & Hin & Hfile).
    exists (name :: rel), name0, names, fs. split_and!; [done | | done].
    rewrite walk_eq. right. apply elem_of_walk_below. exists (name, sub).
    split; [done |]. by rewrite <- app_assoc in Hin.
Qed.




(** ** The loop as a list of writes *)

Section Walker_loop.
Variable tostring : Element → string.

Lemma clean_xml_path_Some doc text :
  clean_xml_path tostring doc = Some text
  ↔ ∃ root out, doc = Tree root ∧ clean_xml root = Some out
                ∧ text = declaration +:+ newline +:+ tostring out.
Proof.
  unfold clean_xml_path. destruct doc as [root |]; [| naive_solver].
  destruct (clean_xml root) as [out |] eqn:Hout; naive_solver.
Qed.

Lemma clean_xml_path_truthy doc text :
  clean_xml_path tostring doc = Some text → truthy (Some text) = true.
Proof. by intros (root & out & _ & _ & ->)%clean_xml_path_Some. Qed.

Lemma copy_file_planned input_folder output_folder root disk entry :
  copy_file tostring input_folder output_folder root disk entry
  = from_option (apply_write disk) disk
      (planned tostring input_folder output_folder root entry).
Proof.
  unfold copy_file, planned. destruct (endswith entry.1 ".xml"); [| done].
  cbn [negb]. destruct (clean_xml_path tostring entry.2) as [text |] eqn:Htext; [| done].
  by rewrite (clean_xml_path_truthy _ _ Htext).
Qed.

Lemma foldl_copy_file input_folder output_folder root fs disk :
  foldl (copy_file tostring input_folder output_folder root) disk fs
  = foldl apply_write disk
      (omap (planned tostring input_folder output_folder root) fs).
Proof.
  revert disk. induction fs as [| entry fs IH]; intros disk; [done |].
  cbn [foldl omap list_omap]. rewrite IH, copy_file_planned.
  by destruct (planned _ _ _ _ entry).
Qed.

Lemma clean_and_copy_eq input_folder output_folder input disk :
  clean_and_copy_xml_files tostring input_folder output_folder input disk
  = foldl apply_write
      (if negb (path_exists output_folder disk) then makedirs output_folder disk
       else disk)
      (plan tostring input_folder output_folder input).
Proof.
  unfold clean_and_copy_xml_files, plan.
  generalize (if negb (path_exists output_folder disk)
              then makedirs output_folder disk else disk) as disk0.
  induction (os_walk input_folder input) as [| step steps IH]; intros disk0; [done |].
  cbn [foldl]. rewrite bind_cons, foldl_app, IH. f_equal. apply foldl_copy_file.
Qed.

Lemma elem_of_plan input_folder output_folder d q text :
  (q, text) ∈ plan tostring input_folder output_folder (Some d)
  ↔ ∃ rel name root out,
      has_file d (rel ++ [name]) (Tree root)
      ∧ endswith name ".xml" = true
      ∧ clean_xml root = Some out
      ∧ q = output_folder ++ rel ++ [name]
      ∧ text = declaration +:+ newline +:+ tostring out.
Proof.
  unfold plan, os_walk. rewrite list_elem_of_bind. split.
  - intros ([[root names] fs] & Hin & Hstep). simpl in Hin.
    apply list_elem_of_omap in Hin as ([name doc] & Hfile & Hplan).
    unfold planned in Hplan. simpl in Hplan.
    destruct (endswith name ".xml") eqn:Hxml; [| done].
    destruct (clean_xml_path tostring doc) as [text2 |] eqn:Htext; [| done].
    simplify_eq.
    apply clean_xml_path_Some in Htext as (r & out & -> & Hout & ->).
    destruct (walk_has_file _ _ _ _ _ _ _ Hstep Hfile) as (rel & -> & Hhas).
    exists rel, name, r, out. split_and!; try done.
    rewrite <- app_assoc, relpath_below; [done | by destruct rel].
  - intros (rel & name & r & out & Hhas & Hxml & Hout & -> & ->).
    destruct (has_file_walk _ _ _ Hhas input_folder)
      as (rel2 & name2 & names & fs & Heq & Hstep & Hfile).
    apply app_inj_tail in Heq as [<- <-].
    exists (input_folder ++ rel, names, fs). split; [| done]. simpl.
    apply list_elem_of_omap. exists (name, Tree r). split; [done |].
    unfold planned, clean_xml_path. simpl. rewrite Hxml, Hout.
    rewrite <- app_assoc, relpath_below; [done | by destruct rel].
Qed.
End Walker_loop.

(** ** A list of writes on a disk *)

Lemma dirs_apply_write disk kv :
  dirs (apply_write disk kv) = dirs disk ∪ list_to_set (prefixes (dirname kv.1)).
Proof. reflexivity. Qed.

Lemma texts_apply_write disk kv :
  texts (apply_write disk kv) = <[kv.1 := kv.2]> (texts disk).
Proof. reflexivity. Qed.

Lemma texts_apply_writes disk l :
  texts (foldl apply_write disk l) = list_to_map (reverse l) ∪ texts disk.
Proof.
  induction l as [| [k v] l IH] using rev_ind.
  - simpl. by rewrite (left_id_L ∅ (∪)).
  - rewrite foldl_snoc, reverse_snoc, list_to_map_cons, texts_apply_write.
    by rewrite IH, insert_union_l.
Qed.

Lemma elem_of_dirs_apply_writes disk l (p : list string) :
  p ∈ dirs (foldl apply_write disk l)
  ↔ p ∈ dirs disk ∨ ∃ kv, kv ∈ l ∧ p ∈ prefixes (dirname kv.1).
Proof.
  induction l as [| [k v] l IH] using rev_ind.
  - simpl. split; [by left |]. by intros [? | (? & ?%elem_of_nil & _)].
  - rewrite foldl_snoc, dirs_apply_write.
    rewrite elem_of_union, (elem_of_list_to_set (C := gset (list string))), IH.
    setoid_rewrite elem_of_app. setoid_rewrite list_elem_of_singleton.
    naive_solver.
Qed.

Lemma disk_eq (a b : Disk) : dirs a = dirs b → texts a = texts b → a = b.
Proof. destruct a, b. simpl. by intros -> ->. Qed.

Lemma dirs_makedirs d disk :
  dirs (makedirs d disk) = dirs disk ∪ list_to_set (prefixes d).
Proof. reflexivity. Qed.




Section Walker_run.
Variable tostring : Element → string.
Variables input_folder output_folder : list string.

Lemma texts_start_disk disk : texts (start_disk output_folder disk) = texts disk.
Proof. unfold start_disk. by destruct (negb _). Qed.

Lemma path_exists_start_disk disk :
  path_exists output_folder (start_disk output_folder disk) = true.
Proof.
  unfold start_disk. destruct (path_exists output_folder disk) eqn:He; [done |].
  cbn [negb]. unfold path_exists. apply orb_true_iff. left.
  rewrite dirs_makedirs.
  apply bool_decide_eq_true, elem_of_union_r, elem_of_list_to_set, elem_of_prefixes.
  exists (length output_folder). by rewrite take_ge.
Qed.

Lemma path_exists_apply_writes disk l p :
  path_exists p disk = true → path_exists p (foldl apply_write disk l) = true.
Proof.
  unfold path_exists. rewrite !orb_true_iff, !bool_decide_eq_true.
  intros [Hd | Ht].
  - left. apply elem_of_dirs_apply_writes. by left.
  - right. rewrite texts_apply_writes. apply lookup_union_is_Some. by right.
Qed.

Lemma run_texts input disk :
  texts (clean_and_copy_xml_files tostring input_folder output_folder input disk)
  = list_to_map (reverse (plan tostring input_folder output_folder input)) ∪ texts disk.
Proof.
  rewrite clean_and_copy_eq. fold (start_disk output_folder disk).
  by rewrite texts_apply_writes, texts_start_disk.
Qed.

Lemma run_texts_changed input disk q :
  texts (clean_and_copy_xml_files tostring input_folder output_folder input disk) !! q
  ≠ texts disk !! q →
  ∃ text, (q, text) ∈ plan tostring input_folder output_folder input
          ∧ texts (clean_and_copy_xml_files tostring input_folder output_folder
                     input disk) !! q = Some text.
Proof.
  rewrite run_texts, lookup_union.
  destruct (list_to_map _ !! q) as [text |] eqn:Hq.
  - intros _. exists text. split.
    + apply elem_of_reverse. by apply elem_of_list_to_map_2 in Hq.
    + by destruct (texts disk !! q).
  - rewrite (left_id_L None _). done.
Qed.

Lemma run_idempotent input disk :
  let run := clean_and_copy_xml_files tostring input_folder output_folder input in
  run (run disk) = run disk.
Proof.
  intros run. unfold run. rewrite !clean_and_copy_eq. fold (start_disk output_folder disk).
  set (l := plan tostring input_folder output_folder input).
  set (r := foldl apply_write (start_disk output_folder disk) l).
  assert (path_exists output_folder r = true) as Hex
    by apply path_exists_apply_writes, path_exists_start_disk.
  rewrite Hex. cbn [negb]. apply disk_eq.
  - apply set_eq. intros p. rewrite elem_of_dirs_apply_writes. split; [| by left].
    intros [Hp | Hp]; [done |]. apply elem_of_dirs_apply_writes. by right.
  - rewrite texts_apply_writes. unfold r. rewrite texts_apply_writes.
    by rewrite (assoc_L (∪)), (idemp_L (∪)).
Qed.

Lemma plan_nil input :
  (∀ q text, (q, text) ∉ plan tostring input_folder output_folder input) →
  plan tostring input_folder output_folder input = [].
Proof.
  destruct (plan _ _ _ _) as [| [q text] l]; [done |].
  intros H. destruct (H q text). by left.
Qed.
End Walker_run.

(** ** [endswith] *)

Lemma substring_whole (s : string) : String.substring 0 (String.length s) s = s.
Proof. induction s as [| c s IH]; simpl; [done | by rewrite IH]. Qed.

Lemma substring_append_r (pre suf : string) :
  String.substring (String.length pre) (String.length suf) (pre +:+ suf) = suf.
Proof. induction pre as [| c pre IH]; simpl; [apply substring_whole | done]. Qed.

Lemma length_append (s1 s2 : string) :
  String.length (s1 +:+ s2) = (String.length s1 + String.length s2)%nat.
Proof. induction s1 as [| c s1 IH]; simpl; [done | by rewrite IH]. Qed.

Lemma substring_split (s : string) (k : nat) :
  (k ≤ String.length s)%nat →
  s = String.substring 0 k s +:+ String.substring k (String.length s - k) s.
Proof.
  revert k. induction s as [| c s IH]; intros k Hk; simpl in *.
  - by destruct k.
  - destruct k as [| k]; simpl.
    + by rewrite substring_whole.
    + change (String c s
              = String c (String.substring 0 k s
                          +:+ String.substring k (String.length s - k) s)).
      f_equal. apply IH. lia.
Qed.

(** [name.endswith(suffix)] holds exactly of the names [stem + suffix]. *)
Lemma endswith_spec (s suffix : string) :
  endswith s suffix = true ↔ ∃ stem, s = stem +:+ suffix.
Proof.
  unfold endswith. rewrite andb_true_iff, bool_decide_eq_true, String.eqb_eq. split.
  - intros [Hlen Hsub].
    exists (String.substring 0 (String.length s - String.length suffix) s).
    pose proof (substring_split s (String.length s - String.length suffix)) as H.
    replace (String.length s - (String.length s - String.length suffix))%nat
      with (String.length suffix) in H by lia.
    rewrite Hsub in H. apply H. lia.
  - intros [stem ->]. rewrite length_append. split; [lia |].
    replace (String.length stem + String.length suffix - String.length suffix)%nat
      with (String.length stem) by lia.
    apply substring_append_r.
Qed.

(** ** What a run may delete: [thins] *)

Lemma forest_thins_refl_of in_props cs :
  Forall (λ c, thins c c) cs → forest_thins in_props cs cs.
Proof. induction 1; [apply thins_nil | by apply thins_keep]. Qed.

Lemma thins_refl e : thins e e.
Proof.
  induction e as [t a cs IH] using Element_ind'.
  constructor; [apply attrib_kept_refl | by apply forest_thins_refl_of].
Qed.

Lemma thins_tag e e' : thins e e' → tag e' = tag e.
Proof. by destruct 1. Qed.

Lemma thins_attrib e e' : thins e e' → attrib_kept (tag e) (attrib e) (attrib e').
Proof. by destruct 1. Qed.

Lemma thins_children e e' :
  thins e e' →
  forest_thins (bool_decide (tag e = "props")) (children e) (children e').
Proof. by destruct 1. Qed.

Lemma thins_is_blood e e' : thins e e' → is_blood e' = is_blood e.
Proof.
  intros H. unfold is_blood.
  by rewrite (attrib_kept_lookup _ _ _ "actor" (thins_attrib _ _ H)).
Qed.

Lemma thins_emptied_node e :
  forest_thins (bool_decide (tag e = "props")) (children e) [] →
  thins e (mkElement (tag e) (attrib e) []).
Proof. destruct e as [t a cs]. intros H. constructor; [apply attrib_kept_refl | done]. Qed.

(** Transitivity, by induction on the first tree. *)
Lemma forest_thins_trans_of cs1 :
  Forall (λ c1, ∀ c2 c3, thins c1 c2 → thins c2 c3 → thins c1 c3) cs1 →
  ∀ in_props cs2 cs3,
    forest_thins in_props cs1 cs2 → forest_thins in_props cs2 cs3 →
    forest_thins in_props cs1 cs3.
Proof.
  induction 1 as [| c1 cs1 Hc _ IH]; intros in_props cs2 cs3 H12 H23.
  - inversion H12; subst. done.
  - inversion H12 as [| | | ? ? c2 ? cs2' Hc12 Hcs12]; subst.
    + apply thins_blood; [done | by eapply IH].
    + apply thins_emptied; [done | done | by eapply IH].
    + inversion H23 as [| ? ? ? Hb Hcs23 | ? ? ? ? Ht He Hcs23 | ? ? c3 ? cs3' Hc23 Hcs23];
        subst.
      * apply thins_blood; [| by eapply IH].
        by rewrite <- (thins_is_blood _ _ Hc12).
      * pose proof (Hc _ _ Hc12 (thins_emptied_node _ He)) as Hc13.
        apply thins_children in Hc13. simpl in Hc13.
        rewrite (thins_tag _ _ Hc12) in Ht.
        apply thins_emptied; [done | done | by eapply IH].
      * apply thins_keep; [by eapply Hc | by eapply IH].
Qed.

Lemma thins_trans e1 e2 e3 : thins e1 e2 → thins e2 e3 → thins e1 e3.
Proof.
  revert e2 e3. induction e1 as [t a cs IH] using Element_ind'.
  intros e2 e3 H12 H23. inversion H12; subst. inversion H23; subst.
  constructor; [by eapply attrib_kept_trans | by eapply forest_thins_trans_of].
Qed.

Lemma forest_thins_trans in_props cs1 cs2 cs3 :
  forest_thins in_props cs1 cs2 → forest_thins in_props cs2 cs3 →
  forest_thins in_props cs1 cs3.
Proof.
  apply forest_thins_trans_of, Forall_forall. intros c _ c2 c3. apply thins_trans.
Qed.

(** Children that are all childless and of a prunable tag may go as
    well. *)
Lemma forest_thins_all_emptied in_props cs cs' :
  forest_thins in_props cs cs' →
  Forall (λ c', tag c' ∈ prunable ∧ children c' = []) cs' →
  forest_thins in_props cs [].
Proof.
  induction 1 as [| c cs cs' Hb _ IH | in_props c cs cs' Ht He _ _ IH
                  | in_props c c' cs cs' Hc _ IH]; intros Hall.
  - apply thins_nil.
  - apply thins_blood; auto.
  - apply thins_emptied; auto.
  - apply Forall_cons in Hall as [[Ht Hnil] Hall].
    apply thins_emptied; [| | by apply IH].
    + by rewrite <- (thins_tag _ _ Hc).
    + pose proof (thins_children _ _ Hc) as H. by rewrite Hnil in H.
Qed.

(** *** The three stages *)

Lemma filter_props_below_thins skip in_props cs :
  (skip = true → in_props = true) →
  Forall (λ c, thins c (filter_props c)) cs →
  forest_thins in_props cs (filter_props_below skip cs).
Proof.
  intros Hskip. induction 1 as [| c cs Hc _ IH]; [apply thins_nil |].
  rewrite filter_props_below_cons. destruct (skip && is_blood c) eqn:Hb.
  - apply andb_true_iff in Hb as [-> Hb]. rewrite (Hskip eq_refl) in IH |- *.
    by apply thins_blood.
  - by apply thins_keep.
Qed.

Lemma filter_props_thins e : thins e (filter_props e).
Proof.
  induction e as [t a cs IH] using Element_ind'. rewrite filter_props_eq.
  constructor; [apply attrib_kept_refl |]. by apply filter_props_below_thins.
Qed.

Lemma filter_props_root_thins root :
  forest_thins false (children root) (children (filter_props_root root)).
Proof.
  simpl. apply filter_props_below_thins; [done |].
  apply Forall_forall. intros c _. apply filter_props_thins.
Qed.

Lemma fmap_thins (f : Element → Element) in_props cs :
  Forall (λ c, thins c (f c)) cs → forest_thins in_props cs (f <$> cs).
Proof.
  induction 1; [apply thins_nil |]. rewrite fmap_cons. by apply thins_keep.
Qed.

Lemma set_frequency_thins e : thins e (set_frequency e).
Proof.
  induction e as [t a cs IH] using Element_ind'.
  pose proof (set_frequency_attrib_kept (mkElement t a cs)) as Ha.
  rewrite set_frequency_eq in Ha |- *. simpl in Ha.
  constructor; [done | by apply fmap_thins].
Qed.

Lemma set_frequency_root_thins root :
  forest_thins false (children root) (children (set_frequency_root root)).
Proof.
  simpl. apply fmap_thins, Forall_forall. intros c _. apply set_frequency_thins.
Qed.

Lemma visit_child_thins c :
  thins c (remove_empty_elements c).1 →
  thins c (visit_child c).1.1
  ∧ ((visit_child c).1.2 = true →
     tag c ∈ prunable
     ∧ forest_thins (bool_decide (tag c = "props")) (children c) []).
Proof.
  intros Hthin. unfold visit_child.
  pose proof (thins_children _ _ Hthin) as Hcs.
  destruct (remove_empty_elements c) as [c' m]. simpl in *.
  generalize dependent (bool_decide (tag c = "props")). intros in_props Hcs.
  case_bool_decide as Hcont; [| case_bool_decide as Hvar; [| case_bool_decide as Hgrp]];
    simpl.
  - split; [apply thins_refl |]. intros Hnil%bool_decide_eq_true. split.
    + unfold prunable. set_solver.
    + rewrite Hnil. apply thins_nil.
  - split; [done |]. intros [[Hnil%bool_decide_eq_true _]%andb_true_iff _]%andb_true_iff.
    split; [rewrite Hvar; unfold prunable; set_solver |]. by rewrite Hnil in Hcs.
  - split; [done |]. intros Hrm.
    split; [rewrite Hgrp; unfold prunable; set_solver |].
    destruct (children c') as [| v [| ? ?]] eqn:Hc'; [done | | done].
    apply andb_true_iff in Hrm as [Hv%bool_decide_eq_true Hrm].
    apply andb_true_iff in Hrm as [[Hnil%bool_decide_eq_true _]%andb_true_iff _].
    eapply forest_thins_all_emptied; [exact Hcs |].
    constructor; [| done]. split; [rewrite Hv; unfold prunable; set_solver | done].
  - split; [apply thins_refl | done].
Qed.

Lemma remove_loop_thins in_props cs :
  Forall (λ c, thins c (remove_empty_elements c).1) cs →
  forest_thins in_props cs (remove_loop cs).1.
Proof.
  induction 1 as [| c cs Hc _ IH]; [apply thins_nil |].
  rewrite remove_loop_cons.
  destruct (visit_child_thins c Hc) as [Hthin Hrm].
  destruct (visit_child c) as [[c' to_remove] m1], (remove_loop cs) as [cs' m2].
  simpl in *. destruct to_remove.
  - destruct (Hrm eq_refl). by apply thins_emptied.
  - by apply thins_keep.
Qed.

Lemma remove_empty_elements_thins e : thins e (remove_empty_elements e).1.
Proof.
  induction e as [t a cs IH] using Element_ind'.
  rewrite remove_empty_elements_eq.
  pose proof (remove_loop_thins (bool_decide (t = "props")) cs IH) as H.
  destruct (remove_loop cs) as [cs' m]. simpl in *.
  constructor; [apply attrib_kept_refl | done].
Qed.

Lemma remove_empty_elements_root_thins root :
  forest_thins false (children root) (children (remove_empty_elements root).1).
Proof.
  destruct root as [t a cs]. rewrite remove_empty_elements_eq.
  pose proof (remove_loop_thins false cs) as H.
  destruct (remove_loop cs) as [cs' m]. simpl in *.
  apply H, Forall_forall. intros c _. apply remove_empty_elements_thins.
Qed.

Lemma clean_xml_run_thins root :
  forest_thins false (children root) (children (clean_xml_run root).1).
Proof.
  destruct (has_blood root) eqn:Hb.
  - pose proof (clean_xml_run_blood root Hb) as Hrun. cbv zeta in Hrun.
    pose proof (remove_empty_elements_root_thins
                  (set_frequency_root (filter_props_root root))) as H3.
    destruct (remove_empty_elements _) as [r3 m3]. rewrite Hrun. simpl in H3 |- *.
    eapply forest_thins_trans; [| exact H3].
    eapply forest_thins_trans;
      [apply filter_props_root_thins
      | apply (set_frequency_root_thins (filter_props_root root))].
  - rewrite clean_xml_run_no_blood; [| done]. simpl.
    apply forest_thins_refl_of, Forall_forall. intros c _. apply thins_refl.
Qed.

(** *** What cannot go *)







(** * Further properties of the script *)

(** [remove_empty_elements] sets [modified] exactly when it removes
    something: the flag stays as it was if and only if the tree it was
    called on comes back unchanged. *)
Theorem pruner_modified_iff_changed e :
  (remove_empty_elements e).2 = false ↔ (remove_empty_elements e).1 = e.
Proof. apply remove_empty_elements_flag. Qed.

(** A second pass of [remove_empty_elements] over its own result removes
    nothing and does not set [modified]: one pass reaches the final
    tree. *)
Theorem pruner_second_pass e :
  remove_empty_elements (remove_empty_elements e).1
  = ((remove_empty_elements e).1, false).
Proof. apply settled_fixed, remove_empty_elements_settled. Qed.

(** After [remove_empty_elements], among the children of the elements it
    looks at no [<variant>] is empty (no children, no file, frequency
    ["0"]) and no [<group>] is empty or holds just one useless
    variant. *)
Theorem pruner_leaves_no_empty_variant_or_group e p x c :
  reached (remove_empty_elements e).1 p = Some x → c ∈ children x →
  (tag c = "variant" → ¬ empty_variant c)
  ∧ (tag c = "group" → ¬ useless_group c).
Proof.
  intros Hr Hin.
  pose proof (settled_reached _ _ _ _ (remove_empty_elements_settled e) Hr Hin) as Hv.
  split; intros Ht; [by apply settled_child_variant | by apply settled_child_group].
Qed.

(** A [<group>] whose children are all empty variants (no children, no
    file, frequency ["0"]), and so also a group without children, is
    listed for removal: the variants go first and the group is then
    empty. *)
Theorem group_of_empty_variants_is_removed g :
  tag g = "group" →
  Forall (λ v, tag v = "variant" ∧ empty_variant v) (children g) →
  (visit_child g).1.2 = true.
Proof.
  intros Ht Hall. rewrite (visit_child_group _ Ht).
  destruct g as [t a cs]. simpl in Hall. rewrite remove_empty_elements_eq.
  assert ((remove_loop cs).1 = []) as Hcs.
  { apply remove_loop_all_removed. eapply Forall_impl; [exact Hall |].
    intros v [Hv He]. by apply visit_child_empty_variant. }
  destruct (remove_loop cs) as [cs2 m]. simpl in *. by subst.
Qed.

(** The loop over [root.findall(".//props")] never sets [modified], also
    when it empties a [<props>]: [props.find("..")] finds no parent.  The
    tree it leaves is the input with the children that mention blood
    deleted from every [<props>] below the root. *)
Theorem props_loop_never_sets_modified root :
  (props_loop root).2 = false
  ∧ (props_loop root).1 = filter_props_root root.
Proof. by rewrite props_loop_eq. Qed.

(** A second run of the loop over [.//props] changes nothing. *)
Theorem props_loop_second_run root :
  props_loop (props_loop root).1 = ((props_loop root).1, false).
Proof.
  rewrite !props_loop_eq. cbn [fst]. f_equal.
  apply filter_props_root_fixed, filter_props_root_ok.
Qed.

(** The loop over [root.findall(".//variant")] sets [modified] exactly
    when some [<variant>] below the root has no frequency. *)
Theorem variant_loop_modified_iff root :
  (variant_loop root).2 = true
  ↔ ∃ p v, p ≠ [] ∧ subtree root p = Some v ∧ tag v = "variant"
           ∧ attrib v !! "frequency" = None.
Proof. rewrite variant_loop_eq. apply needs_frequency_true. Qed.

(** A second run of the loop over [.//variant] changes nothing and does
    not set [modified]. *)
Theorem variant_loop_second_run root :
  variant_loop (variant_loop root).1 = ((variant_loop root).1, false).
Proof.
  rewrite !variant_loop_eq. cbn [fst].
  pose proof (set_frequency_root_ok root) as [_ Hall]. f_equal.
  - by apply set_frequency_root_fixed.
  - by apply needs_frequency_false.
Qed.

(** The root element is never removed, renamed or given an attribute:
    after every run it has the tag and the attributes it had. *)
Theorem run_keeps_root root :
  tag (clean_xml_run root).1 = tag root
  ∧ attrib (clean_xml_run root).1 = attrib root.
Proof. apply clean_xml_run_root. Qed.

(** A document is only written when it was changed: the tree that
    [clean_xml] returns is never the tree it was given. *)
Theorem written_tree_differs root out :
  clean_xml root = Some out → out ≠ root.
Proof.
  intros [Hb ->]%clean_xml_Some Heq.
  pose proof (has_blood_run root Hb) as Hclean. rewrite Heq in Hclean. congruence.
Qed.

(** When blood is found, [clean_xml] returns [None] exactly when neither
    the loop over [.//variant] nor [remove_empty_elements] changes the
    tree that the loop over [.//props] left: the removal of the props
    alone is never written. *)
Theorem blood_found_nothing_written_iff root :
  has_blood root = true →
  clean_xml root = None ↔ (clean_xml_run root).1 = (props_loop root).1.
Proof. apply clean_xml_None_iff. Qed.

Section Walker_properties.
Variable tostring : Element → string.
Variables input_folder output_folder : list string.


(** Nothing else is written: a text file of the output disk is new or has
    new contents after the run only if it mirrors an [.xml] file of the
    input folder that parses and for which [clean_xml] returns a tree.
    Files with another ending, files that do not parse and documents for
    which [clean_xml] returns [None] leave no file. *)
Theorem only_cleaned_files_are_written input disk q :
  texts (clean_and_copy_xml_files tostring input_folder output_folder input disk) !! q
  ≠ texts disk !! q →
  ∃ d rel name root out,
    input = Some d
    ∧ has_file d (rel ++ [name]) (Tree root)
    ∧ endswith name ".xml" = true
    ∧ clean_xml root = Some out
    ∧ q = output_folder ++ rel ++ [name]
    ∧ texts (clean_and_copy_xml_files tostring input_folder output_folder input disk)
        !! q
      = Some (declaration +:+ newline +:+ tostring out).
Proof.
  intros (text & Hin & Hq)%run_texts_changed.
  destruct input as [d |]; [| by apply elem_of_nil in Hin].
  apply elem_of_plan in Hin as (rel & name & root & out & ? & ? & ? & -> & ->).
  by exists d, rel, name, root, out.
Qed.


(** Running the script a second time with the same folders leaves the
    output disk as the first run left it. *)
Theorem second_run_same_output input disk :
  clean_and_copy_xml_files tostring input_folder output_folder input
    (clean_and_copy_xml_files tostring input_folder output_folder input disk)
  = clean_and_copy_xml_files tostring input_folder output_folder input disk.
Proof. apply run_idempotent. Qed.

(** Run on a folder whose documents are all trees that [clean_xml]
    returned before, the script writes no file: it makes the output
    folder when it is missing and does nothing else. *)
Theorem own_output_is_not_rewritten d disk :
  (∀ rel doc, has_file d rel doc →
              ∃ root out, clean_xml root = Some out ∧ doc = Tree out) →
  clean_and_copy_xml_files tostring input_folder output_folder (Some d) disk
  = if negb (path_exists output_folder disk) then makedirs output_folder disk
    else disk.
Proof.
  intros Hown. rewrite clean_and_copy_eq, plan_nil; [done |].
  intros q text (rel & name & root & out & Hhas & _ & Hout & _)%elem_of_plan.
  destruct (Hown _ _ Hhas) as (root0 & out0 & Hout0 & [= ->]).
  apply clean_xml_Some in Hout0 as [Hb ->].
  apply clean_xml_Some in Hout as [Hb2 _].
  pose proof (has_blood_run root0 Hb). congruence.
Qed.
End Walker_properties.

(** ** The theorems with hypotheses, on the sample documents *)

(** In [doc_two_variants] the placeholder variant stays, and it is not an
    empty variant. *)
Lemma pruner_leaves_no_empty_variant_or_group_witness :
  ¬ empty_variant variant_full_frequency.
Proof.
  apply (pruner_leaves_no_empty_variant_or_group doc_two_variants [0]
           (elem "group" []
              [variant_full_frequency;
               elem "variant" [("frequency", "1"); ("file", "a.xml")] []])
           variant_full_frequency).
  - by vm_compute.
  - simpl. apply list_elem_of_here.
  - reflexivity.
Defined.

(** Example 2 is written, and what is written differs from it. *)
Lemma written_tree_differs_witness :
  elem "actor" []
    [elem "group" []
       [elem "variant" [("file", "hero_skin.asset"); ("frequency", "0")] []]]
  ≠ doc_example2.
Proof.
  apply (written_tree_differs doc_example2). by vm_compute.
Defined.

(** [doc_two_props]: blood is found, and nothing is written. *)
Lemma blood_found_nothing_written_iff_witness :
  has_blood doc_two_props = true
  ∧ (clean_xml doc_two_props = None
     ↔ (clean_xml_run doc_two_props).1 = (props_loop doc_two_props).1).
Proof.
  split; [by vm_compute |].
  apply (blood_found_nothing_written_iff doc_two_props). by vm_compute.
Defined.



(** The file that appears at [home/out/units/hero.xml] comes from the
    input folder. *)
Lemma only_cleaned_files_are_written_witness :
  ∃ d rel name root out,
    Some sample_folder = Some d
    ∧ has_file d (rel ++ [name]) (Tree root)
    ∧ endswith name ".xml" = true
    ∧ clean_xml root = Some out
    ∧ ["home"; "out"; "units"; "hero.xml"] = ["home"; "out"] ++ rel ++ [name]
    ∧ texts (clean_and_copy_xml_files tag ["in"] ["home"; "out"]
               (Some sample_folder) empty_disk)
        !! ["home"; "out"; "units"; "hero.xml"]
      = Some (declaration +:+ newline +:+ tag out).
Proof.
  apply (only_cleaned_files_are_written tag ["in"] ["home"; "out"]
           (Some sample_folder) empty_disk ["home"; "out"; "units"; "hero.xml"]).
  vm_compute. discriminate.
Defined.


(** On [cleaned_folder] only the output folder is made. *)
Lemma own_output_is_not_rewritten_witness :
  clean_and_copy_xml_files tag ["out"] ["out2"] (Some cleaned_folder) empty_disk
  = makedirs ["out2"] empty_disk.
Proof.
  apply (own_output_is_not_rewritten tag ["out"] ["out2"] cleaned_folder empty_disk).
  intros rel doc H.
  inversion H as [? ? ? Hin | ? ? ? ? ? Hsub]; simpl in *.
  - apply list_elem_of_singleton in Hin as [= -> ->].
    exists doc_prop_under_variant, doc_prop_under_variant_out.
    split; [by vm_compute | done].
  - by apply elem_of_nil in Hsub.
Defined.

(** A group that holds one empty variant. *)
Lemma group_of_empty_variants_is_removed_witness :
  (visit_child (elem "group" [] [elem "variant" [("frequency", "0")] []])).1.2 = true.
Proof.
  apply (group_of_empty_variants_is_removed
           (elem "group" [] [elem "variant" [("frequency", "0")] []])).
  - reflexivity.
  - constructor; [| constructor]. split; [reflexivity |]. by vm_compute.
Defined.

(** A run deletes an element for one of two reasons only: it is a child
    of a [<props>] below the root and its actor mentions blood, or its tag
    is one of props, animations, textures, variant and group and all its
    children are deleted for these same reasons.  What stays keeps its
    tag and, but for a frequency ["0"] given to a variant, its
    attributes. *)
Theorem deleted_for_two_reasons_only root :
  forest_thins false (children root) (children (clean_xml_run root).1).
Proof. apply clean_xml_run_thins. Qed.


